(** * Bounded gzip/JSON codec: [Compress] and [Decompress]

    A shallow embedding of package [compress] (functions [Compress] and
    [Decompress]) together with executable models of the library
    behaviour the two functions are glued from:

    - [errors]  : the application error values ([go-server/pkg/errors]);
    - [io]      : [io.LimitedReader] and [io.Copy(io.Discard, _)];
    - [gzip]    : [gzip.Writer] and [gzip.Reader] (RFC 1952 framing, CRC-32
                  and length footer) over an abstract DEFLATE codec;
    - [json]    : the streaming [json.Decoder] (its byte scanner and its
                  read-ahead buffer) and [json.Encoder], over a class of
                  Go types that know how to marshal and unmarshal.

    Bytes are [ascii] (eight bits); Go's [int64] limit is a [Z]. *)

From Stdlib Require Import List String Ascii ZArith NArith Lia Bool Arith.
Import ListNotations.

Local Open Scope Z_scope.

Definition byte := ascii.
Definition bytes := list byte.

(** A Go string or byte-slice literal. *)
Definition B (s : string) : bytes := list_ascii_of_string s.

(** The double quote. *)
Definition dquote : byte := ascii_of_nat 34.

Definition byte_val (c : byte) : Z := Z.of_N (N_of_ascii c).
Definition byte_of (z : Z) : byte := ascii_of_N (Z.to_N (z mod 256)).

(** [len(b)] as an [int64]. *)
Definition len {A} (l : list A) : Z := Z.of_nat (List.length l).

(* ------------------------------------------------------------------ *)
(** ** Errors of the standard library, as far as the codec can see them *)

Inductive liberr : Type :=
| EOF                                 (* io.EOF *)
| ErrUnexpectedEOF                    (* io.ErrUnexpectedEOF *)
| ErrHeader                           (* gzip.ErrHeader *)
| ErrChecksum                         (* gzip.ErrChecksum *)
| CorruptInputError                   (* flate.CorruptInputError *)
| SyntaxError (c : byte) (context : string)   (* json.SyntaxError *)
| UnsupportedTypeError (ty : string)  (* json.UnsupportedTypeError *)
| UnmarshalTypeError (value ty : string)      (* json.UnmarshalTypeError *)
| ErrNoProgress.                      (* io.ErrNoProgress *)

Definition is_EOF (e : liberr) : bool :=
  match e with EOF => true | _ => false end.

(** [noEOF] of compress/gzip: a clean EOF in the middle of a member is
    unexpected. *)
Definition noEOF (e : liberr) : liberr :=
  match e with EOF => ErrUnexpectedEOF | _ => e end.

(* ------------------------------------------------------------------ *)
(** ** Decimal printing ([%d]) and substring search ([strings.Contains]) *)

Module fmt.

Definition digit (n : nat) : ascii := ascii_of_nat (48 + n).

Fixpoint digits_fuel (fuel : nat) (n : nat) (acc : string) : string :=
  match fuel with
  | O => acc
  | S f =>
      let acc' := String (digit (n mod 10)) acc in
      if Nat.ltb n 10 then acc' else digits_fuel f (n / 10) acc'
  end.

Definition nat_to_string (n : nat) : string := digits_fuel (S n) n EmptyString.

(** The verb [%d] on an integer. *)
Definition d (z : Z) : string :=
  if z <? 0 then String "-" (nat_to_string (Z.to_nat (- z)))
  else nat_to_string (Z.to_nat z).

End fmt.

Module strings.

Fixpoint HasPrefix (s p : string) : bool :=
  match p, s with
  | EmptyString, _ => true
  | String c p', String c' s' => Ascii.eqb c c' && HasPrefix s' p'
  | String _ _, EmptyString => false
  end.

Fixpoint Contains (s sub : string) : bool :=
  HasPrefix s sub ||
  match s with
  | EmptyString => false
  | String _ s' => Contains s' sub
  end.

End strings.

(* ------------------------------------------------------------------ *)
(** ** Package [errors] *)

Module errors.

(** Modelled from the spec: package [go-server/pkg/errors] is not among the
    sources; only its callers are.  The spec fixes a taxonomy of error
    classes and says that a failure carries its class, a human-readable
    message and the wrapped cause.  An error value is that triple. *)
Inductive Code : Type := InvalidParams | InternalServerError | Storage.

Record Error : Type := mkError {
  code : Code;
  message : string;
  cause : option liberr
}.

Definition New (c : Code) (msg : string) : Error := mkError c msg None.
Definition Errorf (c : Code) (msg : string) : Error := mkError c msg None.
Definition Wrapf (err : liberr) (c : Code) (msg : string) : Error :=
  mkError c msg (Some err).

End errors.

(* ------------------------------------------------------------------ *)
(** ** Little-endian words and CRC-32 (IEEE) *)

Module binary.

(** [binary.LittleEndian.PutUint32] on a [uint32]: the argument is taken
    modulo [2^32]. *)
Definition PutUint32 (x : Z) : bytes :=
  [ byte_of x; byte_of (x / 256); byte_of (x / 65536); byte_of (x / 16777216) ].

(** [binary.LittleEndian.Uint32] of the first four bytes. *)
Definition Uint32 (b : bytes) : Z :=
  match b with
  | b0 :: b1 :: b2 :: b3 :: _ =>
      byte_val b0 + 256 * byte_val b1 + 65536 * byte_val b2
      + 16777216 * byte_val b3
  | _ => 0
  end.

End binary.

Module crc32.

Definition poly : Z := 0xEDB88320.

Fixpoint shift8 (n : nat) (c : Z) : Z :=
  match n with
  | O => c
  | S n' =>
      shift8 n' (if Z.testbit c 0 then Z.lxor (Z.shiftr c 1) poly
                 else Z.shiftr c 1)
  end.

Fixpoint update (c : Z) (p : bytes) : Z :=
  match p with
  | [] => c
  | b :: p' => update (shift8 8 (Z.lxor c (byte_val b))) p'
  end.

(** [crc32.ChecksumIEEE], a [uint32]. *)
Definition ChecksumIEEE (p : bytes) : Z :=
  (Z.lxor (update 0xFFFFFFFF p) 0xFFFFFFFF) mod 2 ^ 32.

End crc32.

(* ------------------------------------------------------------------ *)
(** ** Package [io] *)

Module io.

(** [io.Reader]: [Read r k] is [r.Read(p)] with [len(p) = k]; it returns
    the bytes stored in [p], the error and the reader afterwards.
    [reads_bound] bounds the number of calls that can return without an
    error; the loops below take their fuel from it. *)
Class Reader (R : Type) : Type := {
  Read : R -> nat -> (bytes * option liberr) * R;
  reads_bound : R -> nat
}.

(** [io.Writer]: [Write w p] is [w.Write(p)]. *)
Class Writer (W : Type) : Type := {
  Write : W -> bytes -> W * option liberr
}.

Record LimitedReader (R : Type) : Type := mkLimitedReader {
  R_ : R;      (* underlying reader *)
  N : Z        (* max bytes remaining *)
}.
Arguments mkLimitedReader {R}.
Arguments R_ {R}.
Arguments N {R}.

(** [func (l *LimitedReader) Read(p []byte) (n int, err error)] *)
Definition LimitedReader_Read {R} `{Reader R} (l : LimitedReader R) (k : nat)
  : (bytes * option liberr) * LimitedReader R :=
  if N l <=? 0 then (([], Some EOF), l)
  else
    let k' := if Z.of_nat k >? N l then Z.to_nat (N l) else k in
    let '((c, err), r') := Read (R_ l) k' in
    ((c, err), mkLimitedReader r' (N l - len c)).

#[global] Instance LimitedReader_Reader {R} `{Reader R} : Reader (LimitedReader R) := {
  Read := LimitedReader_Read;
  reads_bound l := reads_bound (R_ l)
}.

(** The 8 KiB scratch buffer [io.Discard] reads into. *)
Definition blackHole : nat := Z.to_nat 8192.

(** [io.Copy(io.Discard, src)], that is [discard.ReadFrom(src)]: read until
    an error; [io.EOF] is the normal end and is not reported. *)
Fixpoint discard_ReadFrom {R} `{Reader R} (fuel : nat) (src : R) (n : Z)
  : (Z * option liberr) * R :=
  match fuel with
  | O => ((n, Some ErrNoProgress), src)
  | S fuel' =>
      let '((c, err), src') := Read src blackHole in
      let n' := n + len c in
      match err with
      | Some e => ((n', if is_EOF e then None else Some e), src')
      | None => discard_ReadFrom fuel' src' n'
      end
  end.

Definition Copy_Discard {R} `{Reader R} (src : R) : (Z * option liberr) * R :=
  discard_ReadFrom (S (reads_bound src)) src 0.

End io.

(* ------------------------------------------------------------------ *)
(** ** Package [compress/flate], abstract *)

Module flate.

(** The DEFLATE codec is a parameter.  [deflate d] is the complete DEFLATE
    stream the writer emits for [d]; [inflate r] decodes the stream at the
    front of [r] and returns the bytes produced together with either the
    error that stopped it or the number of input bytes it consumed. *)
Class Codec : Type := {
  deflate : bytes -> bytes;
  inflate : bytes -> bytes * (liberr + nat)
}.

(** What the codec owes: a stream written by [deflate] is read back, and
    the reader stops exactly at its end. *)
Class Lawful (C : Codec) : Prop := {
  inflate_deflate : forall d rest,
    inflate (deflate d ++ rest) = (d, inr (List.length (deflate d)))
}.

(** Size of the decompressor's sliding window ([maxMatchOffset]): the
    reader hands out at most this much per flush. *)
Definition window : Z := 32768.

End flate.

(* ------------------------------------------------------------------ *)
(** ** Package [compress/gzip] *)

Module gzip.
Import flate.

Section WithCodec.
Context {C : flate.Codec}.

Definition gzipID1 : byte := byte_of 0x1f.
Definition gzipID2 : byte := byte_of 0x8b.
Definition gzipDeflate : byte := byte_of 8.

Definition flagHdrCrc : Z := 2.
Definition flagExtra : Z := 4.
Definition flagName : Z := 8.
Definition flagComment : Z := 16.

(** *** Writer *)

(** A [gzip.Writer] on a [bytes.Buffer]: [w] is the buffer, [data] what
    was handed to the compressor so far.  The buffer never refuses a
    write, so the errors below are always [None]; they are kept because
    the callers test them. *)
Record Writer : Type := mkWriter {
  w : bytes;
  wroteHeader : bool;
  data : bytes;
  closed : bool
}.

Definition NewWriter (buf : bytes) : Writer := mkWriter buf false [] false.

(** The ten header bytes of a writer with an empty [Header], no
    modification time, default compression level and unknown OS. *)
Definition header : bytes :=
  [ gzipID1; gzipID2; gzipDeflate; byte_of 0;
    byte_of 0; byte_of 0; byte_of 0; byte_of 0; byte_of 0; byte_of 255 ].

Definition Write (z : Writer) (p : bytes) : Writer * option liberr :=
  let z1 := if wroteHeader z then z
            else mkWriter (w z ++ header) true (data z) (closed z) in
  (mkWriter (w z1) true (data z1 ++ p) (closed z1), None).

Definition footer (d : bytes) : bytes :=
  binary.PutUint32 (crc32.ChecksumIEEE d) ++ binary.PutUint32 (len d).

Definition Close (z : Writer) : Writer * option liberr :=
  if closed z then (z, None)
  else
    let '(z1, err) := if wroteHeader z then (z, None) else Write z [] in
    match err with
    | Some e => (z1, Some e)
    | None =>
        (mkWriter (w z1 ++ deflate (data z1) ++ footer (data z1))
                  true (data z1) true, None)
    end.

#[global] Instance Writer_Writer : io.Writer Writer := { io.Write := Write }.

(** *** Reader *)

(** [io.ReadFull] of [k] bytes from the front of [r]. *)
Definition ReadFull (r : bytes) (k : nat) : liberr + (bytes * bytes) :=
  if Nat.leb k (List.length r) then inr (firstn k r, skipn k r)
  else match r with [] => inl EOF | _ => inl ErrUnexpectedEOF end.

(** [readString]: a NUL-terminated string of at most 511 bytes; [i] is
    the fuel left of the 512-byte scratch buffer. *)
Fixpoint readString (i : nat) (r : bytes) : liberr + bytes :=
  match i with
  | O => inl ErrHeader
  | S i' =>
      match r with
      | [] => inl EOF
      | c :: r' =>
          if Ascii.eqb c zero then inr r' else readString i' r'
      end
  end.

Definition has_flag (flg f : Z) : bool := negb (Z.land flg f =? 0).

Definition Uint16 (b : bytes) : Z :=
  match b with
  | b0 :: b1 :: _ => byte_val b0 + 256 * byte_val b1
  | _ => 0
  end.

(** [readHeader]: parse one member header at the front of [r] and return
    what follows it.  [all] is [r]; the header CRC covers the header bytes
    read before it. *)
Definition readHeader (r : bytes) : liberr + bytes :=
  match ReadFull r 10 with
  | inl e => inl e
  | inr (h, r1) =>
      if negb (Ascii.eqb (nth 0 h zero) gzipID1
               && Ascii.eqb (nth 1 h zero) gzipID2
               && Ascii.eqb (nth 2 h zero) gzipDeflate)
      then inl ErrHeader
      else
        let flg := byte_val (nth 3 h zero) in
        let after_extra :=
          if has_flag flg flagExtra then
            match ReadFull r1 2 with
            | inl e => inl (noEOF e)
            | inr (l2, r2) =>
                match ReadFull r2 (Z.to_nat (Uint16 l2)) with
                | inl e => inl (noEOF e)
                | inr (_, r3) => inr r3
                end
            end
          else inr r1 in
        let after_name :=
          match after_extra with
          | inl e => inl e
          | inr r2 =>
              if has_flag flg flagName then
                match readString 512 r2 with
                | inl e => inl (noEOF e)
                | inr r3 => inr r3
                end
              else inr r2
          end in
        let after_comment :=
          match after_name with
          | inl e => inl e
          | inr r2 =>
              if has_flag flg flagComment then
                match readString 512 r2 with
                | inl e => inl (noEOF e)
                | inr r3 => inr r3
                end
              else inr r2
          end in
        match after_comment with
        | inl e => inl e
        | inr r2 =>
            if has_flag flg flagHdrCrc then
              match ReadFull r2 2 with
              | inl e => inl (noEOF e)
              | inr (d2, r3) =>
                  let seen := firstn (List.length r - List.length r2) r in
                  if Uint16 d2 =? crc32.ChecksumIEEE seen mod 65536
                  then inr r3 else inl ErrHeader
              end
            else inr r2
        end
  end.

(** What a reader will deliver, flush by flush.  [ZData s z]: the
    decompressor's window filled up with [s] and the member goes on.
    [ZLastErr s e]: the last flush [s] of the stream, returned together
    with the error [e] that ends it ([io.EOF] after a verified footer when
    nothing follows).  [ZLastNext s z]: the last flush of a member whose
    footer verified and which is followed by the member [z]. *)
Inductive Reader : Type :=
| ZData (s : bytes) (z : Reader)
| ZLastErr (s : bytes) (e : liberr)
| ZLastNext (s : bytes) (z : Reader).

(** The flushes of one member producing [d], ending as [last] says. *)
Fixpoint flushes (fuel : nat) (d : bytes) (last : bytes -> Reader) : Reader :=
  match fuel with
  | O => last d
  | S fuel' =>
      if len d <? window then last d
      else ZData (firstn (Z.to_nat window) d)
                 (flushes fuel' (skipn (Z.to_nat window) d) last)
  end.

(** The members from [r] on, [r] standing right after a parsed header. *)
Fixpoint members (fuel : nat) (r : bytes) : Reader :=
  match fuel with
  | O => ZLastErr [] ErrUnexpectedEOF
  | S fuel' =>
      let '(d, res) := inflate r in
      let fl := flushes (List.length d) d in
      match res with
      | inl e => fl (fun s => ZLastErr s e)
      | inr k =>
          match ReadFull (skipn k r) 8 with
          | inl e => fl (fun s => ZLastErr s (noEOF e))
          | inr (ft, r') =>
              if negb ((binary.Uint32 ft =? crc32.ChecksumIEEE d)
                       && (binary.Uint32 (skipn 4 ft) =? len d mod 2 ^ 32))
              then fl (fun s => ZLastErr s ErrChecksum)
              else
                match readHeader r' with
                | inl e => fl (fun s => ZLastErr s e)
                | inr r'' => fl (fun s => ZLastNext s (members fuel' r''))
                end
          end
      end
  end.

(** [gzip.NewReader(bytes.NewReader(b))]: the first header is read at
    once. *)
Definition NewReader (b : bytes) : liberr + Reader :=
  match readHeader b with
  | inl e => inl e
  | inr r => inr (members (List.length b) r)
  end.

(** [func (z *Reader) Read(p []byte) (n int, err error)], [len(p) = k]. *)
Fixpoint Read (z : Reader) (k : nat) : (bytes * option liberr) * Reader :=
  match z with
  | ZData s z' =>
      if Nat.ltb k (List.length s) then ((firstn k s, None), ZData (skipn k s) z')
      else ((s, None), z')
  | ZLastErr s e =>
      if Nat.ltb k (List.length s)
      then ((firstn k s, None), ZLastErr (skipn k s) e)
      else ((s, Some e), ZLastErr [] e)
  | ZLastNext s z' =>
      if Nat.ltb k (List.length s)
      then ((firstn k s, None), ZLastNext (skipn k s) z')
      else match s with
           | [] => Read z' k
           | _ => ((s, None), z')
           end
  end.

(** All the bytes a reader still has to deliver, and the error that ends
    it. *)
Fixpoint payload (z : Reader) : bytes :=
  match z with
  | ZData s z' => s ++ payload z'
  | ZLastErr s _ => s
  | ZLastNext s z' => s ++ payload z'
  end.

Fixpoint final (z : Reader) : liberr :=
  match z with
  | ZData _ z' => final z'
  | ZLastErr _ e => e
  | ZLastNext _ z' => final z'
  end.

Fixpoint flush_count (z : Reader) : nat :=
  match z with
  | ZData _ z' => S (flush_count z')
  | ZLastErr _ _ => 1
  | ZLastNext _ z' => S (flush_count z')
  end.

#[global] Instance Reader_Reader : io.Reader Reader := {
  io.Read := Read;
  io.reads_bound z := (List.length (payload z) + flush_count z)%nat
}.

End WithCodec.
End gzip.

(* ------------------------------------------------------------------ *)
(** ** Go types and the empty interface *)

(** A Go type as [encoding/json] sees it.  [marshal] is [json.Marshal] with
    HTML escaping (without the newline [Encode] adds); [unmarshal item v]
    is [d.unmarshal] of the scanned text [item] into a variable holding
    [v]: it returns what the variable holds afterwards and the saved error.
    [type_name] is what [%T] prints and [zero] the zero value. *)
Class GoType (T : Type) : Type := {
  type_name : string;
  zero : T;
  marshal : T -> liberr + bytes;
  unmarshal : bytes -> T -> T * option liberr
}.

(** An interface value [any]: the nil interface, or a dynamic type with a
    value of that type. *)
Inductive any : Type :=
| nil_any
| iface {T : Type} {G : GoType T} (v : T).

(* ------------------------------------------------------------------ *)
(** ** Package [encoding/json]: the scanner *)

Module json.

Local Open Scope char_scope.

(** The step functions of the scanner, as states. *)
Inductive state : Type :=
| stateBeginValueOrEmpty | stateBeginValue
| stateBeginStringOrEmpty | stateBeginString
| stateEndValue | stateEndTop
| stateInString | stateInStringEsc
| stateInStringEscU | stateInStringEscU1
| stateInStringEscU12 | stateInStringEscU123
| stateNeg | state1 | state0 | stateDot | stateDot0
| stateE | stateESign | stateE0
| stateT | stateTr | stateTru
| stateF | stateFa | stateFal | stateFals
| stateN | stateNu | stateNul
| stateError.

(** The opcodes a step returns. *)
Inductive opcode : Type :=
| scanContinue | scanBeginLiteral | scanBeginObject | scanObjectKey
| scanObjectValue | scanEndObject | scanBeginArray | scanArrayValue
| scanEndArray | scanSkipSpace | scanEnd | scanError.

Inductive parse : Type := parseObjectKey | parseObjectValue | parseArrayValue.

Record scanner : Type := mkScanner {
  step : state;
  endTop : bool;
  parseState : list parse;     (* innermost first *)
  err : option liberr
}.

Definition maxNestingDepth : Z := 10000.

Definition reset : scanner := mkScanner stateBeginValue false [] None.

Definition isSpace (c : byte) : bool :=
  Ascii.eqb c " " || Ascii.eqb c "009" || Ascii.eqb c "013" || Ascii.eqb c "010".

Definition set_step (s : scanner) (st : state) : scanner :=
  mkScanner st (endTop s) (parseState s) (err s).

(** [s.error(c, context)] *)
Definition error (s : scanner) (c : byte) (context : string) : scanner * opcode :=
  (mkScanner stateError (endTop s) (parseState s) (Some (SyntaxError c context)),
   scanError).

Definition pushParseState (s : scanner) (c : byte) (newParseState : parse)
           (successState : opcode) : scanner * opcode :=
  let s' := mkScanner (step s) (endTop s) (newParseState :: parseState s) (err s) in
  if (len (parseState s') <=? maxNestingDepth)%Z then (s', successState)
  else error s' c "exceeded max depth".

Definition popParseState (s : scanner) : scanner :=
  match List.tl (parseState s) with
  | [] => mkScanner stateEndTop true [] (err s)
  | ps => mkScanner stateEndValue (endTop s) ps (err s)
  end.

Definition set_top (s : scanner) (p : parse) : scanner :=
  mkScanner (step s) (endTop s) (p :: List.tl (parseState s)) (err s).

Definition isDigit (c : byte) : bool :=
  (48 <=? nat_of_ascii c)%nat && (nat_of_ascii c <=? 57)%nat.
Definition isDigit19 (c : byte) : bool :=
  (49 <=? nat_of_ascii c)%nat && (nat_of_ascii c <=? 57)%nat.
Definition isHex (c : byte) : bool :=
  isDigit c
  || ((97 <=? nat_of_ascii c)%nat && (nat_of_ascii c <=? 102)%nat)
  || ((65 <=? nat_of_ascii c)%nat && (nat_of_ascii c <=? 70)%nat).

Definition do_stateEndTop (s : scanner) (c : byte) : scanner * opcode :=
  if negb (isSpace c)
  then (fst (error s c "after top-level value"), scanEnd)
  else (s, scanEnd).

Definition do_stateEndValue (s : scanner) (c : byte) : scanner * opcode :=
  match parseState s with
  | [] =>
      do_stateEndTop (mkScanner stateEndTop true (parseState s) (err s)) c
  | ps :: _ =>
      if isSpace c then (set_step s stateEndValue, scanSkipSpace)
      else
        match ps with
        | parseObjectKey =>
            if Ascii.eqb c ":"
            then (set_step (set_top s parseObjectValue) stateBeginValue,
                  scanObjectKey)
            else error s c "after object key"
        | parseObjectValue =>
            if Ascii.eqb c ","
            then (set_step (set_top s parseObjectKey) stateBeginString,
                  scanObjectValue)
            else if Ascii.eqb c "}" then (popParseState s, scanEndObject)
            else error s c "after object key:value pair"
        | parseArrayValue =>
            if Ascii.eqb c ","
            then (set_step s stateBeginValue, scanArrayValue)
            else if Ascii.eqb c "]" then (popParseState s, scanEndArray)
            else error s c "after array element"
        end
  end.

Definition do_stateBeginValue (s : scanner) (c : byte) : scanner * opcode :=
  if isSpace c then (s, scanSkipSpace)
  else if Ascii.eqb c "{"
  then pushParseState (set_step s stateBeginStringOrEmpty) c parseObjectKey
                      scanBeginObject
  else if Ascii.eqb c "["
  then pushParseState (set_step s stateBeginValueOrEmpty) c parseArrayValue
                      scanBeginArray
  else if Ascii.eqb c dquote then (set_step s stateInString, scanBeginLiteral)
  else if Ascii.eqb c "-" then (set_step s stateNeg, scanBeginLiteral)
  else if Ascii.eqb c "0" then (set_step s state0, scanBeginLiteral)
  else if Ascii.eqb c "t" then (set_step s stateT, scanBeginLiteral)
  else if Ascii.eqb c "f" then (set_step s stateF, scanBeginLiteral)
  else if Ascii.eqb c "n" then (set_step s stateN, scanBeginLiteral)
  else if isDigit19 c then (set_step s state1, scanBeginLiteral)
  else error s c "looking for beginning of value".

Definition do_stateBeginString (s : scanner) (c : byte) : scanner * opcode :=
  if isSpace c then (s, scanSkipSpace)
  else if Ascii.eqb c dquote then (set_step s stateInString, scanBeginLiteral)
  else error s c "looking for beginning of object key string".

Definition do_state0 (s : scanner) (c : byte) : scanner * opcode :=
  if Ascii.eqb c "." then (set_step s stateDot, scanContinue)
  else if Ascii.eqb c "e" || Ascii.eqb c "E" then (set_step s stateE, scanContinue)
  else do_stateEndValue s c.

Definition do_stateESign (s : scanner) (c : byte) : scanner * opcode :=
  if isDigit c then (set_step s stateE0, scanContinue)
  else error s c "in exponent of numeric literal".

(** One fixed letter of [true], [false] or [null]. *)
Definition expect (s : scanner) (c want : byte) (next : state) (context : string)
  : scanner * opcode :=
  if Ascii.eqb c want then (set_step s next, scanContinue)
  else error s c context.

(** [s.step(s, c)] *)
Definition do_step (s : scanner) (c : byte) : scanner * opcode :=
  match step s with
  | stateBeginValueOrEmpty =>
      if isSpace c then (s, scanSkipSpace)
      else if Ascii.eqb c "]" then do_stateEndValue s c
      else do_stateBeginValue s c
  | stateBeginValue => do_stateBeginValue s c
  | stateBeginStringOrEmpty =>
      if isSpace c then (s, scanSkipSpace)
      else if Ascii.eqb c "}"
      then do_stateEndValue (set_top s parseObjectValue) c
      else do_stateBeginString s c
  | stateBeginString => do_stateBeginString s c
  | stateEndValue => do_stateEndValue s c
  | stateEndTop => do_stateEndTop s c
  | stateInString =>
      if Ascii.eqb c dquote then (set_step s stateEndValue, scanContinue)
      else if Ascii.eqb c "\" then (set_step s stateInStringEsc, scanContinue)
      else if (nat_of_ascii c <? 32)%nat then error s c "in string literal"
      else (s, scanContinue)
  | stateInStringEsc =>
      if Ascii.eqb c "b" || Ascii.eqb c "f" || Ascii.eqb c "n" || Ascii.eqb c "r"
         || Ascii.eqb c "t" || Ascii.eqb c "\" || Ascii.eqb c "/"
         || Ascii.eqb c dquote
      then (set_step s stateInString, scanContinue)
      else if Ascii.eqb c "u" then (set_step s stateInStringEscU, scanContinue)
      else error s c "in string escape code"
  | stateInStringEscU =>
      if isHex c then (set_step s stateInStringEscU1, scanContinue)
      else error s c "in \u hexadecimal character escape"
  | stateInStringEscU1 =>
      if isHex c then (set_step s stateInStringEscU12, scanContinue)
      else error s c "in \u hexadecimal character escape"
  | stateInStringEscU12 =>
      if isHex c then (set_step s stateInStringEscU123, scanContinue)
      else error s c "in \u hexadecimal character escape"
  | stateInStringEscU123 =>
      if isHex c then (set_step s stateInString, scanContinue)
      else error s c "in \u hexadecimal character escape"
  | stateNeg =>
      if Ascii.eqb c "0" then (set_step s state0, scanContinue)
      else if isDigit19 c then (set_step s state1, scanContinue)
      else error s c "in numeric literal"
  | state1 =>
      if isDigit c then (set_step s state1, scanContinue)
      else do_state0 s c
  | state0 => do_state0 s c
  | stateDot =>
      if isDigit c then (set_step s stateDot0, scanContinue)
      else error s c "after decimal point in numeric literal"
  | stateDot0 =>
      if isDigit c then (s, scanContinue)
      else if Ascii.eqb c "e" || Ascii.eqb c "E"
      then (set_step s stateE, scanContinue)
      else do_stateEndValue s c
  | stateE =>
      if Ascii.eqb c "+" || Ascii.eqb c "-"
      then (set_step s stateESign, scanContinue)
      else do_stateESign s c
  | stateESign => do_stateESign s c
  | stateE0 =>
      if isDigit c then (s, scanContinue) else do_stateEndValue s c
  | stateT => expect s c "r" stateTr "in literal true (expecting 'r')"
  | stateTr => expect s c "u" stateTru "in literal true (expecting 'u')"
  | stateTru => expect s c "e" stateEndValue "in literal true (expecting 'e')"
  | stateF => expect s c "a" stateFa "in literal false (expecting 'a')"
  | stateFa => expect s c "l" stateFal "in literal false (expecting 'l')"
  | stateFal => expect s c "s" stateFals "in literal false (expecting 's')"
  | stateFals => expect s c "e" stateEndValue "in literal false (expecting 'e')"
  | stateN => expect s c "u" stateNu "in literal null (expecting 'u')"
  | stateNu => expect s c "l" stateNul "in literal null (expecting 'l')"
  | stateNul => expect s c "l" stateEndValue "in literal null (expecting 'l')"
  | stateError => (s, scanError)
  end.

Definition is_scanEnd (op : opcode) : bool :=
  match op with scanEnd => true | _ => false end.

(** ** Package [encoding/json]: the streaming decoder *)

Section Decoder.
Context {R : Type} `{io.Reader R}.

Record Decoder : Type := mkDecoder {
  r : R;
  buf : bytes;
  bufcap : nat;          (* cap(dec.buf) *)
  scanp : nat;           (* start of unread data in buf *)
  scan : scanner;
  derr : option liberr   (* dec.err *)
}.

Definition NewDecoder (rd : R) : Decoder :=
  mkDecoder rd [] 0 0 reset None.

Definition minRead : nat := 512.

(** [func (dec *Decoder) refill() error] *)
Definition refill (dec : Decoder) : Decoder * option liberr :=
  let b := if Nat.ltb 0 (scanp dec) then skipn (scanp dec) (buf dec)
           else buf dec in
  let cap1 := if Nat.ltb (bufcap dec - List.length b) minRead
              then (2 * bufcap dec + minRead)%nat else bufcap dec in
  let '((c, e), r') := io.Read (r dec) (cap1 - List.length b) in
  (mkDecoder r' (b ++ c) cap1 0 (scan dec) (derr dec), e).

(** How the scan of the buffered bytes ends. *)
Inductive scanned : Type :=
| Value (scanp : nat) (s : scanner)    (* [break Input] *)
| Failed (s : scanner)                 (* [scanError] *)
| More (scanp : nat) (s : scanner).    (* buffer exhausted *)

(** The inner loop of [readValue] over the unread bytes [b], the first of
    which has index [scanp]. *)
Fixpoint scan_buf (s : scanner) (b : bytes) (scanp : nat) : scanned :=
  match b with
  | [] => More scanp s
  | c :: b' =>
      let '(s1, op) := do_step s c in
      match op with
      | scanEnd => Value scanp s1
      | scanEndObject | scanEndArray =>
          let '(s2, op2) := do_stateEndValue s1 " " in
          if is_scanEnd op2 then Value (S scanp) s2
          else scan_buf s2 b' (S scanp)
      | scanError => Failed s1
      | _ => scan_buf s1 b' (S scanp)
      end
  end.

Definition nonSpace (b : bytes) : bool := existsb (fun c => negb (isSpace c)) b.

Definition set_scan (dec : Decoder) (s : scanner) : Decoder :=
  mkDecoder (r dec) (buf dec) (bufcap dec) (scanp dec) s (derr dec).

Definition set_err (dec : Decoder) (e : option liberr) : Decoder :=
  mkDecoder (r dec) (buf dec) (bufcap dec) (scanp dec) (scan dec) e.

(** The outer loop of [readValue]: [sp] is the local [scanp], [e] the error
    of the last read, looked at only once the buffer is scanned. *)
Fixpoint readValue_loop (fuel : nat) (dec : Decoder) (sp : nat)
         (e : option liberr) : Decoder * (nat * option liberr) :=
  match fuel with
  | O => (set_err dec (Some ErrNoProgress), (O, Some ErrNoProgress))
  | S fuel' =>
      match scan_buf (scan dec) (skipn sp (buf dec)) sp with
      | Value sp' s' => (set_scan dec s', ((sp' - scanp dec)%nat, None))
      | Failed s' => (set_err (set_scan dec s') (err s'), (O, err s'))
      | More sp' s' =>
          match e with
          | Some e0 =>
              if is_EOF e0 then
                let '(s2, op) := do_step s' " " in
                if is_scanEnd op
                then (set_scan dec s2, ((sp' - scanp dec)%nat, None))
                else
                  let e1 := if nonSpace (buf dec) then ErrUnexpectedEOF
                            else EOF in
                  (set_err (set_scan dec s2) (Some e1), (O, Some e1))
              else (set_err (set_scan dec s') (Some e0), (O, Some e0))
          | None =>
              let n := (sp' - scanp dec)%nat in
              let '(dec', e') := refill (set_scan dec s') in
              readValue_loop fuel' dec' (scanp dec' + n)%nat e'
          end
      end
  end.

(** [func (dec *Decoder) readValue() (int, error)] *)
Definition readValue (dec : Decoder) : Decoder * (nat * option liberr) :=
  readValue_loop (2 + io.reads_bound (r dec)) (set_scan dec reset)
                 (scanp dec) None.

(** [func (dec *Decoder) Decode(v any) error], [v] pointing to a [T]
    variable holding [x].  No [Token] call precedes it here, so the token
    state lets a value through. *)
Definition Decode {T} `{GoType T} (dec : Decoder) (x : T)
  : (Decoder * T) * option liberr :=
  match derr dec with
  | Some e => ((dec, x), Some e)
  | None =>
      let '(dec1, (n, e)) := readValue dec in
      match e with
      | Some e => ((dec1, x), Some e)
      | None =>
          let item := firstn n (skipn (scanp dec1) (buf dec1)) in
          let dec2 := mkDecoder (r dec1) (buf dec1) (bufcap dec1)
                                (scanp dec1 + n) (scan dec1) (derr dec1) in
          let '(x', e) := unmarshal item x in
          ((dec2, x'), e)
      end
  end.

End Decoder.

(** ** Package [encoding/json]: the encoder *)

(** [func (enc *Encoder) Encode(v any) error] on a fresh encoder writing
    to [w]: marshal, terminate the value with a newline, write it in one
    call. *)
Definition Encode {W} `{io.Writer W} (w : W) (v : any) : W * option liberr :=
  let m := match v with
           | nil_any => inr (B "null")
           | iface x => marshal x
           end in
  match m with
  | inl e => (w, Some e)
  | inr b => io.Write w (b ++ ["010"])
  end.

End json.

(* ------------------------------------------------------------------ *)
(** ** Package [compress]: the two functions under verification *)

Section Compress.
Context {C : flate.Codec}.

Local Open Scope string_scope.

Definition defaultMaxDecompressedSize : Z := 4 * 1024 * 1024.

(** What [%T] prints for an interface value. *)
Definition type_of (data : any) : string :=
  match data with
  | nil_any => "<nil>"
  | @iface T G _ => @type_name T G
  end.

(** [func Compress(data any) ([]byte, error)]; a nil slice is [None]. *)
Definition Compress (data : any) : option bytes * option errors.Error :=
  match data with
  | nil_any =>
      (None, Some (errors.New errors.InvalidParams "data cannot be nil"))
  | _ =>
      let buf : bytes := [] in
      let gw := gzip.NewWriter buf in
      let '(gw, err) := json.Encode gw data in
      match err with
      | Some err =>
          let '(_, _) := gzip.Close gw in
          (None,
           Some (errors.Wrapf err errors.InternalServerError
                   ("failed to encode JSON (type:" ++ type_of data ++ ")")))
      | None =>
          let '(gw, err) := gzip.Close gw in
          match err with
          | Some err =>
              (None,
               Some (errors.Wrapf err errors.InternalServerError
                       "failed to finalize compression"))
          | None => (Some (gzip.w gw), None)
          end
      end
  end.

Definition exceeds (maxUncompressed : Z) : errors.Error :=
  errors.Errorf errors.InvalidParams
    ("decompressed size exceeds limit: " ++ fmt.d maxUncompressed ++ " bytes").

(** [func Decompress[T any](compressedData []byte, out *T,
    maxUncompressed int64) error].  [out] is [None] for a nil pointer and
    [Some x] for a pointer to a variable holding [x]; the result is what
    the variable holds afterwards, and the error. *)
Definition Decompress {T} `{GoType T} (compressedData : bytes) (out : option T)
           (maxUncompressed : Z) : option T * option errors.Error :=
  if (len compressedData =? 0)%Z then
    (out, Some (errors.New errors.InvalidParams "compressedData cannot be empty"))
  else
    match out with
    | None =>
        (out, Some (errors.New errors.InvalidParams "output pointer cannot be nil"))
    | Some x =>
        let maxUncompressed :=
          if (maxUncompressed <=? 0)%Z then defaultMaxDecompressedSize
          else maxUncompressed in
        match gzip.NewReader compressedData with
        | inl err =>
            (out, Some (errors.Wrapf err errors.InternalServerError
                          "failed to create gzip reader"))
        | inr gr =>
            let lr := io.mkLimitedReader gr maxUncompressed in
            let '((dec, x), err) := json.Decode (json.NewDecoder lr) x in
            let lr := json.r dec in
            match err with
            | Some err =>
                if (io.N lr <=? 0)%Z then (Some x, Some (exceeds maxUncompressed))
                else (Some x, Some (errors.Wrapf err errors.InternalServerError
                                      "failed to decode JSON"))
            | None =>
                let '((_, err), lr) := io.Copy_Discard lr in
                match err with
                | Some err =>
                    if (io.N lr <=? 0)%Z
                    then (Some x, Some (exceeds maxUncompressed))
                    else (Some x,
                          Some (errors.Wrapf err errors.InternalServerError
                                  "failed to verify complete gzip stream"))
                | None => (Some x, None)
                end
            end
        end
    end.

End Compress.

(* ------------------------------------------------------------------ *)
(** ** Some Go types *)

Module types.
Import json.
Local Open Scope string_scope.

Fixpoint skipSpace (b : bytes) : bytes :=
  match b with
  | c :: b' => if isSpace c then skipSpace b' else b
  | [] => []
  end.

(** What kind of JSON value a scanned text is, by its first byte. *)
Inductive kind : Type :=
| KNull | KBool (b : bool) | KString | KNumber | KObject | KArray.

Definition kind_of (item : bytes) : kind :=
  match skipSpace item with
  | c :: _ =>
      if Ascii.eqb c "n" then KNull
      else if Ascii.eqb c "t" then KBool true
      else if Ascii.eqb c "f" then KBool false
      else if Ascii.eqb c dquote then KString
      else if Ascii.eqb c "{" then KObject
      else if Ascii.eqb c "[" then KArray
      else KNumber
  | [] => KNull
  end.

(** The [Value] field of an [UnmarshalTypeError]. *)
Definition kind_name (k : kind) : string :=
  match k with
  | KNull => "null" | KBool _ => "bool" | KString => "string"
  | KNumber => "number" | KObject => "object" | KArray => "array"
  end.

(** [bool] *)
#[global] Instance GoType_bool : GoType bool := {
  type_name := "bool";
  zero := false;
  marshal b := inr (B (if b then "true" else "false"));
  unmarshal item v :=
    match kind_of item with
    | KNull => (v, None)
    | KBool b => (b, None)
    | k => (v, Some (UnmarshalTypeError (kind_name k) "bool"))
    end
}.

(** [*T]: [None] is the nil pointer, [Some x] points to a variable
    holding [x]. *)
#[global] Instance GoType_ptr {T} `{GoType T} : GoType (option T) := {
  type_name := "*" ++ type_name;
  zero := None;
  marshal p := match p with
               | None => inr (B "null")
               | Some x => marshal x
               end;
  unmarshal item p :=
    match kind_of item with
    | KNull => (None, None)
    | _ =>
        let '(x', e) := unmarshal item (match p with Some x => x | None => zero end) in
        (Some x', e)
    end
}.

(** *** [string] *)

Definition hex : bytes := B "0123456789abcdef".
Definition hexdigit (z : Z) : byte := nth (Z.to_nat z) hex "0"%char.

(** [unicode/utf8.DecodeRune]: the rune at the front of [p] and its width;
    an invalid encoding is [RuneError] with width 1. *)
Definition RuneError : Z := 0xFFFD.

Definition in_range (lo hi : Z) (c : byte) : bool :=
  (lo <=? byte_val c)%Z && (byte_val c <=? hi)%Z.

Definition DecodeRune (p : bytes) : Z * nat :=
  match p with
  | [] => (RuneError, O)
  | p0 :: p' =>
      let v0 := byte_val p0 in
      if (v0 <? 0x80)%Z then (v0, 1%nat)
      else
        (* size and accepted range of the second byte, from the [first] table *)
        let '(sz, lo, hi) :=
          if in_range 0xC2 0xDF p0 then (2, 0x80, 0xBF)
          else if in_range 0xE0 0xE0 p0 then (3, 0xA0, 0xBF)
          else if in_range 0xE1 0xEC p0 then (3, 0x80, 0xBF)
          else if in_range 0xED 0xED p0 then (3, 0x80, 0x9F)
          else if in_range 0xEE 0xEF p0 then (3, 0x80, 0xBF)
          else if in_range 0xF0 0xF0 p0 then (4, 0x90, 0xBF)
          else if in_range 0xF1 0xF3 p0 then (4, 0x80, 0xBF)
          else if in_range 0xF4 0xF4 p0 then (4, 0x80, 0x8F)
          else (0, 0, 0) in
        if (sz =? 0)%Z then (RuneError, 1%nat)
        else if (len p <? sz)%Z then (RuneError, 1%nat)
        else
          match p' with
          | b1 :: p'' =>
              if negb (in_range lo hi b1) then (RuneError, 1%nat)
              else if (sz <=? 2)%Z
              then (Z.lor (Z.shiftl (Z.land v0 0x1F) 6) (Z.land (byte_val b1) 0x3F),
                    2%nat)
              else
                match p'' with
                | b2 :: p3 =>
                    if negb (in_range 0x80 0xBF b2) then (RuneError, 1%nat)
                    else if (sz <=? 3)%Z
                    then (Z.lor (Z.shiftl (Z.land v0 0x0F) 12)
                            (Z.lor (Z.shiftl (Z.land (byte_val b1) 0x3F) 6)
                               (Z.land (byte_val b2) 0x3F)), 3%nat)
                    else
                      match p3 with
                      | b3 :: _ =>
                          if negb (in_range 0x80 0xBF b3) then (RuneError, 1%nat)
                          else
                            (Z.lor (Z.shiftl (Z.land v0 0x07) 18)
                               (Z.lor (Z.shiftl (Z.land (byte_val b1) 0x3F) 12)
                                  (Z.lor (Z.shiftl (Z.land (byte_val b2) 0x3F) 6)
                                     (Z.land (byte_val b3) 0x3F))), 4%nat)
                      | [] => (RuneError, 1%nat)
                      end
                | [] => (RuneError, 1%nat)
                end
          | [] => (RuneError, 1%nat)
          end
  end.

(** [unicode/utf8.AppendRune] to the empty slice. *)
Definition EncodeRune (r : Z) : bytes :=
  let cont (x : Z) := byte_of (Z.lor 0x80 (Z.land x 0x3F)) in
  let three (x : Z) :=
    [ byte_of (Z.lor 0xE0 (Z.shiftr x 12)); cont (Z.shiftr x 6); cont x ] in
  if (r <? 0)%Z then three RuneError
  else if (r <=? 0x7F)%Z then [ byte_of r ]
  else if (r <=? 0x7FF)%Z then [ byte_of (Z.lor 0xC0 (Z.shiftr r 6)); cont r ]
  else if (0x10FFFF <? r)%Z || ((0xD800 <=? r)%Z && (r <=? 0xDFFF)%Z)
  then three RuneError
  else if (r <=? 0xFFFF)%Z then three r
  else [ byte_of (Z.lor 0xF0 (Z.shiftr r 18)); cont (Z.shiftr r 12);
         cont (Z.shiftr r 6); cont r ].

(** [htmlSafeSet]: the ASCII bytes written as they are. *)
Definition htmlSafe (c : byte) : bool :=
  (32 <=? nat_of_ascii c)%nat && (nat_of_ascii c <? 128)%nat
  && negb (Ascii.eqb c dquote) && negb (Ascii.eqb c "&")
  && negb (Ascii.eqb c "<") && negb (Ascii.eqb c ">")
  && negb (Ascii.eqb c "\").

(** The escape of an ASCII byte outside [htmlSafeSet]. *)
Definition escape_ascii (c : byte) : bytes :=
  if Ascii.eqb c "\" || Ascii.eqb c dquote then [ "\"%char; c ]
  else if Ascii.eqb c "008" then B "\b"
  else if Ascii.eqb c "012" then B "\f"
  else if Ascii.eqb c "010" then B "\n"
  else if Ascii.eqb c "013" then B "\r"
  else if Ascii.eqb c "009" then B "\t"
  else (B "\u00" ++ [ hexdigit (Z.shiftr (byte_val c) 4);
                      hexdigit (Z.land (byte_val c) 0xF) ])%list.

(** The body of [appendString] with [escapeHTML]: [fuel] bounds the
    number of runes. *)
Fixpoint appendString_loop (fuel : nat) (src : bytes) : bytes :=
  match fuel with
  | O => []
  | S fuel' =>
      match src with
      | [] => []
      | c :: src' =>
          if (byte_val c <? 0x80)%Z then
            ((if htmlSafe c then [c] else escape_ascii c)
             ++ appendString_loop fuel' src')%list
          else
            let '(r, size) := DecodeRune (firstn 4 src) in
            if (r =? RuneError)%Z && Nat.eqb size 1
            then (B "\ufffd" ++ appendString_loop fuel' src')%list
            else if (r =? 0x2028)%Z || (r =? 0x2029)%Z
            then (B "\u202" ++ [ hexdigit (Z.land r 0xF) ]
                  ++ appendString_loop fuel' (skipn size src))%list
            else (firstn size src ++ appendString_loop fuel' (skipn size src))%list
      end
  end.

Definition appendString (src : bytes) : bytes :=
  dquote :: (appendString_loop (List.length src) src ++ [dquote])%list.

Definition hexval (c : byte) : option Z :=
  let v := byte_val c in
  if isDigit c then Some (v - 48)%Z
  else if in_range 97 102 c then Some (v - 97 + 10)%Z
  else if in_range 65 70 c then Some (v - 65 + 10)%Z
  else None.

(** [getu4]: the rune of a [\uXXXX] at the front of [s], if there is one. *)
Definition getu4 (s : bytes) : option Z :=
  match s with
  | b :: u :: h1 :: h2 :: h3 :: h4 :: _ =>
      if Ascii.eqb b "\" && Ascii.eqb u "u" then
        match hexval h1, hexval h2, hexval h3, hexval h4 with
        | Some a, Some b, Some c, Some d =>
            Some (a * 4096 + b * 256 + c * 16 + d)%Z
        | _, _, _, _ => None
        end
      else None
  | _ => None
  end.

Definition IsSurrogate (r : Z) : bool := (0xD800 <=? r)%Z && (r <? 0xE000)%Z.

(** [unicode/utf16.DecodeRune] *)
Definition utf16_DecodeRune (r1 r2 : Z) : Z :=
  if (0xD800 <=? r1)%Z && (r1 <? 0xDC00)%Z && (0xDC00 <=? r2)%Z && (r2 <? 0xE000)%Z
  then (Z.lor (Z.shiftl (r1 - 0xD800) 10) (r2 - 0xDC00) + 0x10000)%Z
  else RuneError.

(** Length of the prefix of [s] that needs no unquoting. *)
Fixpoint plain_prefix (fuel : nat) (s : bytes) : nat :=
  match fuel with
  | O => O
  | S fuel' =>
      match s with
      | [] => O
      | c :: s' =>
          if Ascii.eqb c "\" || Ascii.eqb c dquote || (nat_of_ascii c <? 32)%nat
          then O
          else if (byte_val c <? 0x80)%Z then S (plain_prefix fuel' s')
          else
            let '(rr, size) := DecodeRune s in
            if (rr =? RuneError)%Z && Nat.eqb size 1 then O
            else (size + plain_prefix fuel' (skipn size s))%nat
      end
  end.

(** The second loop of [unquoteBytes]. *)
Fixpoint unquote_loop (fuel : nat) (s : bytes) : option bytes :=
  match fuel with
  | O => match s with [] => Some [] | _ => None end
  | S fuel' =>
      match s with
      | [] => Some []
      | c :: s' =>
          if Ascii.eqb c "\" then
            match s' with
            | [] => None
            | e :: s'' =>
                let lit (x : byte) := option_map (cons x) (unquote_loop fuel' s'') in
                if Ascii.eqb e dquote || Ascii.eqb e "\" || Ascii.eqb e "/"
                   || Ascii.eqb e "'" then lit e
                else if Ascii.eqb e "b" then lit "008"%char
                else if Ascii.eqb e "f" then lit "012"%char
                else if Ascii.eqb e "n" then lit "010"%char
                else if Ascii.eqb e "r" then lit "013"%char
                else if Ascii.eqb e "t" then lit "009"%char
                else if Ascii.eqb e "u" then
                  match getu4 s with
                  | None => None
                  | Some rr =>
                      let rest := skipn 6 s in
                      if IsSurrogate rr then
                        let dec := match getu4 rest with
                                   | Some rr1 => utf16_DecodeRune rr rr1
                                   | None => RuneError
                                   end in
                        if negb (dec =? RuneError)%Z
                        then option_map (app (EncodeRune dec))
                               (unquote_loop fuel' (skipn 6 rest))
                        else option_map (app (EncodeRune RuneError))
                               (unquote_loop fuel' rest)
                      else option_map (app (EncodeRune rr))
                             (unquote_loop fuel' rest)
                  end
                else None
            end
          else if Ascii.eqb c dquote || (nat_of_ascii c <? 32)%nat then None
          else if (byte_val c <? 0x80)%Z
          then option_map (cons c) (unquote_loop fuel' s')
          else
            let '(rr, size) := DecodeRune s in
            option_map (app (EncodeRune rr)) (unquote_loop fuel' (skipn size s))
      end
  end.

(** [unquoteBytes]: the string a quoted JSON string literal stands for. *)
Definition unquoteBytes (s : bytes) : option bytes :=
  match s with
  | q :: s1 =>
      if negb (Ascii.eqb q dquote) then None
      else
        match rev s1 with
        | q' :: inner_rev =>
            if negb (Ascii.eqb q' dquote) then None
            else
              let inner := rev inner_rev in
              let r := plain_prefix (List.length inner) inner in
              if Nat.eqb r (List.length inner) then Some inner
              else option_map (app (firstn r inner))
                     (unquote_loop (List.length inner) (skipn r inner))
        | [] => None
        end
  | [] => None
  end.

(** [string]: a Go string is its bytes. *)
#[global] Instance GoType_string : GoType string := {
  type_name := "string";
  zero := EmptyString;
  marshal s := inr (appendString (list_ascii_of_string s));
  unmarshal item v :=
    match kind_of item with
    | KNull => (v, None)
    | KString =>
        match unquoteBytes (skipSpace item) with
        | Some t => (string_of_list_ascii t, None)
        | None => (v, Some (SyntaxError dquote "in string literal"))
        end
    | k => (v, Some (UnmarshalTypeError (kind_name k) "string"))
    end
}.

(** *** [int] *)

(** [strconv.AppendInt(_, z, 10)] *)
Definition AppendInt (z : Z) : bytes := list_ascii_of_string (fmt.d z).

Fixpoint digits_val (acc : Z) (s : bytes) : option Z :=
  match s with
  | [] => Some acc
  | c :: s' =>
      if isDigit c then digits_val (10 * acc + (byte_val c - 48))%Z s'
      else None
  end.

(** [strconv.ParseInt(s, 10, 64)]: an optional sign and decimal digits,
    in the range of [int64]. *)
Definition ParseInt (s : bytes) : option Z :=
  let '(neg, ds) :=
    match s with
    | c :: s' =>
        if Ascii.eqb c "-" then (true, s')
        else if Ascii.eqb c "+" then (false, s')
        else (false, s)
    | [] => (false, s)
    end in
  match ds with
  | [] => None
  | _ =>
      match digits_val 0 ds with
      | None => None
      | Some n =>
          let z := if neg then (- n)%Z else n in
          if (- 2 ^ 63 <=? z)%Z && (z <? 2 ^ 63)%Z then Some z else None
      end
  end.

(** [int], 64 bits wide. *)
#[global] Instance GoType_int : GoType Z := {
  type_name := "int";
  zero := 0%Z;
  marshal z := inr (AppendInt z);
  unmarshal item v :=
    match kind_of item with
    | KNull => (v, None)
    | KNumber =>
        match ParseInt (skipSpace item) with
        | Some z => (z, None)
        | None =>
            (v, Some (UnmarshalTypeError
                        ("number " ++ string_of_list_ascii (skipSpace item)) "int"))
        end
    | k => (v, Some (UnmarshalTypeError (kind_name k) "int"))
    end
}.

(** [chan T]: a channel is a reference; JSON has no form for it. *)
Inductive chan (T : Type) : Type :=
| nil_chan
| make_chan (id : nat).
Arguments nil_chan {T}.
Arguments make_chan {T}.

#[global] Instance GoType_chan {T} `{GoType T} : GoType (chan T) := {
  type_name := "chan " ++ type_name;
  zero := nil_chan;
  marshal c := inl (UnsupportedTypeError ("chan " ++ type_name));
  unmarshal item c :=
    match kind_of item with
    | KNull => (c, None)
    | k => (c, Some (UnmarshalTypeError (kind_name k) ("chan " ++ type_name)))
    end
}.

End types.

(* ------------------------------------------------------------------ *)
(** ** A DEFLATE codec that only stores *)

(** RFC 1951 stored blocks (BTYPE 00): a one-byte block header, LEN and
    its complement, then LEN literal bytes.  It is a codec among those
    the development quantifies over, and the one the worked examples run
    with. *)
Module stored.

Definition maxStoreBlockSize : Z := 65535.

Definition PutUint16 (x : Z) : bytes := [ byte_of x; byte_of (x / 256) ].

Definition block (final : bool) (c : bytes) : bytes :=
  byte_of (if final then 1 else 0)
  :: PutUint16 (len c) ++ PutUint16 (65535 - len c) ++ c.

Fixpoint blocks (fuel : nat) (d : bytes) : bytes :=
  match fuel with
  | O => block true d
  | S fuel' =>
      if len d <=? maxStoreBlockSize then block true d
      else block false (firstn (Z.to_nat maxStoreBlockSize) d)
           ++ blocks fuel' (skipn (Z.to_nat maxStoreBlockSize) d)
  end.

Definition deflate (d : bytes) : bytes := blocks (List.length d) d.

(** Decode stored blocks from the front of [r]; [acc] is the output so
    far and [used] the input consumed. *)
Fixpoint inflate_loop (fuel : nat) (r : bytes) (acc : bytes) (used : nat)
  : bytes * (liberr + nat) :=
  match fuel with
  | O => (acc, inl ErrUnexpectedEOF)
  | S fuel' =>
      match r with
      | h :: l0 :: l1 :: n0 :: n1 :: r' =>
          if negb (Z.shiftr (byte_val h) 1 mod 4 =? 0)
          then (acc, inl CorruptInputError)
          else
            let n := gzip.Uint16 [l0; l1] in
            if negb (gzip.Uint16 [n0; n1] =? 65535 - n)
            then (acc, inl CorruptInputError)
            else if len r' <? n
            then (acc ++ r', inl ErrUnexpectedEOF)
            else
              let acc' := acc ++ firstn (Z.to_nat n) r' in
              let used' := (used + 5 + Z.to_nat n)%nat in
              if Z.testbit (byte_val h) 0 then (acc', inr used')
              else inflate_loop fuel' (skipn (Z.to_nat n) r') acc' used'
      | _ => (acc, inl ErrUnexpectedEOF)
      end
  end.

Definition inflate (r : bytes) : bytes * (liberr + nat) :=
  inflate_loop (List.length r) r [] 0.

#[global] Instance codec : flate.Codec := {
  flate.deflate := deflate;
  flate.inflate := inflate
}.

End stored.

(* ------------------------------------------------------------------ *)
(** ** Helpers of the test file, and what "encodable" means *)

(** [gzipCompressRaw] of the tests: gzip of raw bytes. *)
Definition gzipCompressRaw {C : flate.Codec} (b : bytes) : bytes :=
  let gw := gzip.NewWriter [] in
  let '(gw, _) := gzip.Write gw b in
  let '(gw, _) := gzip.Close gw in
  gzip.w gw.

(** [truncateEnd] of the tests: drop the last [n] bytes. *)
Definition truncateEnd (b : bytes) (n : Z) : bytes :=
  if (n <=? 0) || (n >=? len b) then []
  else firstn (Z.to_nat (len b - n)) b.

Definition newline : byte := "010"%char.

(** The scan of one complete value: the inner loop of [readValue], started
    on a reset scanner at index 0, stops with the value ending at [n]. *)
Definition scans_to (b : bytes) (n : nat) : Prop :=
  exists s, json.scan_buf json.reset b 0 = json.Value n s.

(** A value is encodable when [json.Marshal] gives a text for it that the
    decoder's scanner takes for one complete value, whatever follows the
    newline, and that [Unmarshal] turns back into the value, whatever the
    destination held. *)
Definition Encodable {T} `{GoType T} (v : T) (text : bytes) : Prop :=
  marshal v = inr text
  /\ (forall rest, scans_to (text ++ newline :: rest) (List.length text))
  /\ (forall x, unmarshal text x = (v, None)).

(** The reader over one member that inflates to [d] and ends with [e]. *)
Definition stream (d : bytes) (e : liberr) : gzip.Reader :=
  gzip.flushes (List.length d) d (fun s => gzip.ZLastErr s e).

(** Everything of [Decompress] after the reader is open. *)
Definition Decompress_body {T} `{GoType T} (gr : gzip.Reader) (x : T)
           (maxUncompressed : Z) : option T * option errors.Error :=
  let lr := io.mkLimitedReader gr maxUncompressed in
  let '((dec, x), err) := json.Decode (json.NewDecoder lr) x in
  let lr := json.r dec in
  match err with
  | Some err =>
      if io.N lr <=? 0 then (Some x, Some (exceeds maxUncompressed))
      else (Some x, Some (errors.Wrapf err errors.InternalServerError
                            "failed to decode JSON"))
  | None =>
      let '((_, err), lr) := io.Copy_Discard lr in
      match err with
      | Some err =>
          if io.N lr <=? 0 then (Some x, Some (exceeds maxUncompressed))
          else (Some x, Some (errors.Wrapf err errors.InternalServerError
                                "failed to verify complete gzip stream"))
      | None => (Some x, None)
      end
  end.

(** The limit [Decompress] works with. *)
Definition effective (maxUncompressed : Z) : Z :=
  if maxUncompressed <=? 0 then defaultMaxDecompressedSize else maxUncompressed.

(** What the drain reports for a stream that ends with [e]. *)
Definition err_of (e : liberr) : option liberr :=
  if is_EOF e then None else Some e.

(** The request a limited reader passes on. *)
Definition capped (k : nat) (n : Z) : nat :=
  if Z.of_nat k >? n then Z.to_nat n else k.


(** ** Worked inputs *)

Module examples.
Import types.

(** [Compress(true)] with the storing codec. *)
Definition compressed_true : bytes :=
  gzipCompressRaw (C := stored.codec) (B "true" ++ [newline]).

(** The string of the size-cap test, and its JSON text. *)
Definition s100 : string := string_of_list_ascii (repeat "a"%char 100).
Definition text100 : bytes := dquote :: repeat "a"%char 100 ++ [dquote].

(** A complete value followed by padding. *)
Definition padded : bytes := B "true" ++ newline :: repeat " "%char 20.

(** Text that is no JSON value. *)
Definition malformed : bytes := B "}".

(** A value, padding beyond the decoder's first read, and a footer whose
    checksum is off by one. *)
Definition long_padded : bytes := B "true" ++ newline :: repeat " "%char 600.
Definition corrupted {C : flate.Codec} : bytes :=
  gzip.header ++ flate.deflate long_padded
  ++ binary.PutUint32 (crc32.ChecksumIEEE long_padded + 1)
  ++ binary.PutUint32 (len long_padded).

(** A channel, which has no JSON form. *)
Definition a_chan : types.chan bool := types.make_chan 3.

End examples.

(* ================================================================== *)
(** * Properties *)

(** ** Bytes and words *)

Lemma byte_val_of (z : Z) : byte_val (byte_of z) = z mod 256.
Proof.
  unfold byte_val, byte_of.
  assert (H : 0 <= z mod 256 < 256) by (apply Z.mod_pos_bound; lia).
  rewrite N_ascii_embedding.
  - rewrite Z2N.id; lia.
  - change 256%N with (Z.to_N 256). apply Z2N.inj_lt; lia.
Qed.

Lemma byte_val_range (c : byte) : 0 <= byte_val c < 256.
Proof.
  unfold byte_val. pose proof (N_ascii_bounded c). lia.
Qed.

Lemma Uint32_PutUint32 (x : Z) (rest : bytes) :
  binary.Uint32 (binary.PutUint32 x ++ rest) = x mod 2 ^ 32.
Proof.
  unfold binary.PutUint32, binary.Uint32. cbn [app].
  rewrite !byte_val_of.
  change (2 ^ 32) with (256 * (256 * (256 * 256))).
  rewrite (Z.rem_mul_r x 256 (256 * (256 * 256))) by lia.
  rewrite (Z.rem_mul_r (x / 256) 256 (256 * 256)) by lia.
  rewrite (Z.rem_mul_r (x / 256 / 256) 256 256) by lia.
  rewrite !Z.div_div by lia.
  change (256 * 256) with 65536. change (65536 * 256) with 16777216.
  lia.
Qed.

Lemma ChecksumIEEE_uint32 (p : bytes) :
  crc32.ChecksumIEEE p mod 2 ^ 32 = crc32.ChecksumIEEE p.
Proof. unfold crc32.ChecksumIEEE. apply Z.mod_mod. lia. Qed.

Lemma len_app {A} (a b : list A) : len (a ++ b) = len a + len b.
Proof. unfold len. rewrite length_app. lia. Qed.

Lemma len_nonneg {A} (a : list A) : 0 <= len a.
Proof. unfold len. lia. Qed.

(** ** The gzip framing *)

Section Framing.
Context {C : flate.Codec}.

Lemma gzipCompressRaw_eq (b : bytes) :
  gzipCompressRaw b = gzip.header ++ flate.deflate b ++ gzip.footer b.
Proof. reflexivity. Qed.

Lemma readHeader_header (r : bytes) : gzip.readHeader (gzip.header ++ r) = inr r.
Proof. reflexivity. Qed.

Lemma payload_flushes (last : bytes -> gzip.Reader) (tl : bytes) :
  (forall s, gzip.payload (last s) = s ++ tl) ->
  forall fuel d, gzip.payload (gzip.flushes fuel d last) = d ++ tl.
Proof.
  intros Hl fuel. induction fuel as [|fuel IH]; intros d; cbn [gzip.flushes].
  - apply Hl.
  - destruct (len d <? flate.window).
    + apply Hl.
    + cbn [gzip.payload]. rewrite IH, app_assoc, firstn_skipn. reflexivity.
Qed.

Lemma final_flushes (last : bytes -> gzip.Reader) (e : liberr) :
  (forall s, gzip.final (last s) = e) ->
  forall fuel d, gzip.final (gzip.flushes fuel d last) = e.
Proof.
  intros Hl fuel. induction fuel as [|fuel IH]; intros d; cbn [gzip.flushes].
  - apply Hl.
  - destruct (len d <? flate.window); [apply Hl | cbn [gzip.final]; apply IH].
Qed.

Lemma payload_stream (d : bytes) (e : liberr) : gzip.payload (stream d e) = d.
Proof.
  unfold stream. rewrite (payload_flushes _ []).
  - apply app_nil_r.
  - intros s. cbn. now rewrite app_nil_r.
Qed.

Lemma final_stream (d : bytes) (e : liberr) : gzip.final (stream d e) = e.
Proof. unfold stream. now apply final_flushes. Qed.

Context {L : flate.Lawful C}.

(** A blob written by the gzip writer opens as one member that delivers
    the raw bytes and ends cleanly. *)
Lemma NewReader_gzipCompressRaw (b : bytes) :
  gzip.NewReader (gzipCompressRaw b) = inr (stream b EOF).
Proof.
  rewrite gzipCompressRaw_eq. unfold gzip.NewReader.
  rewrite readHeader_header.
  cbn [gzip.header app List.length gzip.members].
  rewrite flate.inflate_deflate.
  rewrite skipn_app, skipn_all, Nat.sub_diag. cbn [app skipn].
  unfold gzip.footer at 1.
  cbn [gzip.ReadFull binary.PutUint32 app List.length Nat.leb firstn skipn].
  change [byte_of (crc32.ChecksumIEEE b); byte_of (crc32.ChecksumIEEE b / 256);
          byte_of (crc32.ChecksumIEEE b / 65536);
          byte_of (crc32.ChecksumIEEE b / 16777216);
          byte_of (len b); byte_of (len b / 256); byte_of (len b / 65536);
          byte_of (len b / 16777216)]
    with (binary.PutUint32 (crc32.ChecksumIEEE b) ++ binary.PutUint32 (len b)).
  rewrite Uint32_PutUint32, ChecksumIEEE_uint32, Z.eqb_refl.
  change [byte_of (len b); byte_of (len b / 256); byte_of (len b / 65536);
          byte_of (len b / 16777216)]
    with (binary.PutUint32 (len b) ++ []).
  rewrite Uint32_PutUint32, Z.eqb_refl.
  reflexivity.
Qed.

(** With its last four bytes gone the footer is short: the member still
    delivers the raw bytes, and ends with [io.ErrUnexpectedEOF]. *)
Lemma truncateEnd_gzipCompressRaw (b : bytes) :
  truncateEnd (gzipCompressRaw b) 4
  = gzip.header ++ flate.deflate b ++ binary.PutUint32 (crc32.ChecksumIEEE b).
Proof.
  rewrite gzipCompressRaw_eq. unfold gzip.footer, truncateEnd.
  set (crc := binary.PutUint32 (crc32.ChecksumIEEE b)).
  set (sz := binary.PutUint32 (len b)).
  replace (gzip.header ++ flate.deflate b ++ crc ++ sz)
    with ((gzip.header ++ flate.deflate b ++ crc) ++ sz)
    by (now rewrite <- !app_assoc).
  set (X := gzip.header ++ flate.deflate b ++ crc).
  assert (Hsz : len sz = 4) by reflexivity.
  assert (HX : 14 <= len X).
  { unfold X. rewrite !len_app. change (len gzip.header) with 10.
    change (len crc) with 4. pose proof (len_nonneg (flate.deflate b)). lia. }
  rewrite len_app, Hsz.
  replace (4 <=? 0) with false by reflexivity.
  replace (4 >=? len X + 4) with false
    by (rewrite Z.geb_leb; symmetry; apply Z.leb_gt; lia).
  cbn [orb].
  replace (Z.to_nat (len X + 4 - 4)) with (List.length X + 0)%nat
    by (unfold len; lia).
  rewrite firstn_app_2. cbn [firstn]. apply app_nil_r.
Qed.

Lemma NewReader_truncated (b : bytes) :
  gzip.NewReader (truncateEnd (gzipCompressRaw b) 4)
  = inr (stream b ErrUnexpectedEOF).
Proof.
  rewrite truncateEnd_gzipCompressRaw. unfold gzip.NewReader.
  rewrite readHeader_header.
  cbn [gzip.header app List.length gzip.members].
  rewrite flate.inflate_deflate.
  rewrite skipn_app, skipn_all, Nat.sub_diag. cbn [app skipn].
  reflexivity.
Qed.

End Framing.

(** ** Reading from a gzip reader *)

Section Reading.
Context {C : flate.Codec}.

(** One [Read] hands out a prefix of what is left, never more than asked
    for; an error is the final one and comes when nothing is left; a
    call that asked for something and got no error made progress. *)
Lemma gzip_Read_spec (z : gzip.Reader) (k : nat) c e z' :
  gzip.Read z k = ((c, e), z') ->
  gzip.payload z = c ++ gzip.payload z'
  /\ gzip.final z' = gzip.final z
  /\ (List.length c <= k)%nat
  /\ (e = None \/ (e = Some (gzip.final z) /\ gzip.payload z' = []))
  /\ (e = None -> (0 < k)%nat ->
      (io.reads_bound z' < io.reads_bound z)%nat).
Proof.
  revert c e z'. induction z as [s z IH | s e0 | s z IH]; intros c e z' H;
    cbn [gzip.Read] in H.
  - destruct (Nat.ltb_spec k (List.length s)) as [Hk | Hk]; inversion H; subst; clear H.
    + cbn [gzip.payload gzip.final]. rewrite app_assoc, firstn_skipn.
      repeat split; auto.
      * rewrite length_firstn. lia.
      * intros _ Hk0. cbn [io.reads_bound gzip.Reader_Reader gzip.payload gzip.flush_count].
        rewrite !length_app, length_skipn. lia.
    + cbn [gzip.payload gzip.final]. repeat split; auto.
      intros _ _. cbn [io.reads_bound gzip.Reader_Reader gzip.payload gzip.flush_count].
      rewrite !length_app. lia.
  - destruct (Nat.ltb_spec k (List.length s)) as [Hk | Hk]; inversion H; subst; clear H.
    + cbn [gzip.payload gzip.final]. rewrite firstn_skipn.
      repeat split; auto.
      * rewrite length_firstn. lia.
      * intros _ Hk0. cbn [io.reads_bound gzip.Reader_Reader gzip.payload gzip.flush_count].
        rewrite length_skipn. lia.
    + cbn [gzip.payload gzip.final]. rewrite app_nil_r. repeat split; auto.
      intros Hn; discriminate Hn.
  - destruct (Nat.ltb_spec k (List.length s)) as [Hk | Hk].
    + inversion H; subst; clear H.
      cbn [gzip.payload gzip.final]. rewrite app_assoc, firstn_skipn.
      repeat split; auto.
      * rewrite length_firstn. lia.
      * intros _ Hk0. cbn [io.reads_bound gzip.Reader_Reader gzip.payload gzip.flush_count].
        rewrite !length_app, length_skipn. lia.
    + destruct s as [|b s].
      * destruct (IH _ _ _ H) as (Hp & Hf & Hl & He & Hb).
        cbn [gzip.payload gzip.final app]. repeat split; auto.
        intros He0 Hk0. specialize (Hb He0 Hk0).
        cbn [io.reads_bound gzip.Reader_Reader gzip.payload gzip.flush_count app] in *.
        lia.
      * inversion H; subst; clear H.
        cbn [gzip.payload gzip.final]. repeat split; auto.
        intros _ _. cbn [io.reads_bound gzip.Reader_Reader gzip.payload gzip.flush_count].
        rewrite !length_app. cbn [List.length]. lia.
Qed.

Lemma capped_pos (k : nat) (n : Z) : (0 < k)%nat -> 0 < n -> (0 < capped k n)%nat.
Proof. unfold capped. intros. destruct (Z.of_nat k >? n); lia. Qed.

Lemma capped_le (k : nat) (n : Z) : 0 < n -> Z.of_nat (capped k n) <= n.
Proof.
  unfold capped. intros. destruct (Z.gtb_spec (Z.of_nat k) n); lia.
Qed.

Lemma capped_le_k (k : nat) (n : Z) : (capped k n <= k)%nat.
Proof.
  unfold capped. destruct (Z.gtb_spec (Z.of_nat k) n); lia.
Qed.

Lemma LimitedReader_Read_eq (z : gzip.Reader) (n : Z) (k : nat) :
  io.Read (io.mkLimitedReader z n) k
  = if n <=? 0 then (([], Some EOF), io.mkLimitedReader z n)
    else let '((c, e), z') := gzip.Read z (capped k n) in
         ((c, e), io.mkLimitedReader z' (n - len c)).
Proof. reflexivity. Qed.

Lemma blackHole_pos : (0 < io.blackHole)%nat.
Proof. unfold io.blackHole. lia. Qed.

(** *** The drain *)

(** With budget to spare the drain reaches the end of the stream and
    reports how it ends. *)
Lemma discard_within (fuel : nat) :
  forall (z : gzip.Reader) (n n0 : Z),
    (io.reads_bound z < fuel)%nat ->
    len (gzip.payload z) < n ->
    exists cnt z',
      io.discard_ReadFrom fuel (io.mkLimitedReader z n) n0
      = ((cnt, err_of (gzip.final z)),
         io.mkLimitedReader z' (n - len (gzip.payload z))).
Proof.
  induction fuel as [|fuel IH]; intros z n n0 Hf Hn; [lia|].
  cbn [io.discard_ReadFrom]. rewrite LimitedReader_Read_eq.
  pose proof (len_nonneg (gzip.payload z)) as Hp.
  destruct (Z.leb_spec n 0) as [Hle | Hgt]; [lia|].
  destruct (gzip.Read z (capped io.blackHole n)) as [[c e] z1] eqn:HR.
  destruct (gzip_Read_spec _ _ _ _ _ HR) as (Hpay & Hfin & Hlen & He & Hprog).
  assert (Hlenp : len (gzip.payload z) = len c + len (gzip.payload z1))
    by (rewrite Hpay; apply len_app).
  destruct He as [-> | [-> Hnil]].
  - specialize (Hprog eq_refl (capped_pos _ _ blackHole_pos Hgt)).
    destruct (IH z1 (n - len c) (n0 + len c)) as (cnt & z' & Heq); [lia | lia |].
    exists cnt, z'. rewrite Heq, Hfin. do 2 f_equal. lia.
  - exists (n0 + len c), z1. unfold err_of.
    rewrite Hnil in Hlenp. change (len (@nil byte)) with 0 in Hlenp.
    do 2 f_equal. lia.
Qed.

(** With more bytes left than budget the drain stops at the budget, and
    reports nothing: the limited reader's end is [io.EOF], which the copy
    takes for the normal end. *)
Lemma discard_over (fuel : nat) :
  forall (z : gzip.Reader) (n n0 : Z),
    (io.reads_bound z < fuel)%nat ->
    n < len (gzip.payload z) ->
    exists cnt lr,
      io.discard_ReadFrom fuel (io.mkLimitedReader z n) n0 = ((cnt, None), lr).
Proof.
  induction fuel as [|fuel IH]; intros z n n0 Hf Hn; [lia|].
  cbn [io.discard_ReadFrom]. rewrite LimitedReader_Read_eq.
  destruct (Z.leb_spec n 0) as [Hle | Hgt].
  - eexists _, _. reflexivity.
  - destruct (gzip.Read z (capped io.blackHole n)) as [[c e] z1] eqn:HR.
    destruct (gzip_Read_spec _ _ _ _ _ HR) as (Hpay & Hfin & Hlen & He & Hprog).
    assert (Hlenp : len (gzip.payload z) = len c + len (gzip.payload z1))
      by (rewrite Hpay; apply len_app).
    pose proof (capped_le io.blackHole n Hgt) as Hcap.
    assert (Hc : len c <= n) by (unfold len; lia).
    destruct He as [-> | [-> Hnil]].
    + specialize (Hprog eq_refl (capped_pos _ _ blackHole_pos Hgt)).
      apply IH; lia.
    + rewrite Hnil in Hlenp. change (len (@nil byte)) with 0 in Hlenp. lia.
Qed.

(** A stream that ends cleanly drains without an error, whatever the
    budget. *)
Lemma discard_clean (fuel : nat) :
  forall (z : gzip.Reader) (n n0 : Z),
    (io.reads_bound z < fuel)%nat ->
    gzip.final z = EOF ->
    exists cnt lr,
      io.discard_ReadFrom fuel (io.mkLimitedReader z n) n0 = ((cnt, None), lr).
Proof.
  induction fuel as [|fuel IH]; intros z n n0 Hf Hfin0; [lia|].
  cbn [io.discard_ReadFrom]. rewrite LimitedReader_Read_eq.
  destruct (Z.leb_spec n 0) as [Hle | Hgt].
  - eexists _, _. reflexivity.
  - destruct (gzip.Read z (capped io.blackHole n)) as [[c e] z1] eqn:HR.
    destruct (gzip_Read_spec _ _ _ _ _ HR) as (Hpay & Hfin & Hlen & He & Hprog).
    destruct He as [-> | [-> Hnil]].
    + specialize (Hprog eq_refl (capped_pos _ _ blackHole_pos Hgt)).
      apply IH; [lia | congruence].
    + rewrite Hfin0. cbn [is_EOF]. eexists _, _. reflexivity.
Qed.

End Reading.

(** ** The decoder's scan *)

Section Scanning.

(** Scanning is incremental: the scan of a buffer that grew goes on where
    the scan of the shorter buffer stopped. *)
Lemma scan_buf_app (a b : bytes) :
  forall s p,
    json.scan_buf s (a ++ b) p
    = match json.scan_buf s a p with
      | json.More p' s' => json.scan_buf s' b p'
      | r => r
      end.
Proof.
  induction a as [|c a IH]; intros s p; cbn [app json.scan_buf]; [reflexivity|].
  destruct (json.do_step s c) as [s1 op].
  destruct op; try apply IH; try reflexivity;
    destruct (json.do_stateEndValue s1 " "%char) as [s2 op2];
    destruct (json.is_scanEnd op2); try apply IH; reflexivity.
Qed.

Lemma scan_buf_More (a : bytes) :
  forall s p p' s',
    json.scan_buf s a p = json.More p' s' -> p' = (p + List.length a)%nat.
Proof.
  induction a as [|c a IH]; intros s p p' s'; cbn [json.scan_buf List.length].
  - intros H; inversion H; lia.
  - destruct (json.do_step s c) as [s1 op].
    destruct op; try discriminate;
      try (intros H; apply IH in H; lia);
      destruct (json.do_stateEndValue s1 " "%char) as [s2 op2];
      destruct (json.is_scanEnd op2); try discriminate;
      intros H; apply IH in H; lia.
Qed.

Lemma scan_buf_Value (a : bytes) :
  forall s p n s',
    json.scan_buf s a p = json.Value n s' ->
    (p <= n <= p + List.length a)%nat /\ a <> [].
Proof.
  induction a as [|c a IH]; intros s p n s'; cbn [json.scan_buf List.length].
  - discriminate.
  - assert (Hrec : forall s0, json.scan_buf s0 a (S p) = json.Value n s' ->
                     (p <= n <= p + S (List.length a))%nat /\ c :: a <> []).
    { intros s0 H. destruct (IH _ _ _ _ H) as [Hn _].
      split; [lia | discriminate]. }
    assert (Hnow : forall k s0, (p <= k <= S p)%nat ->
                     json.Value k s0 = json.Value n s' ->
                     (p <= n <= p + S (List.length a))%nat /\ c :: a <> []).
    { intros k s0 Hk H. inversion H; subst. split; [lia | discriminate]. }
    destruct (json.do_step s c) as [s1 op].
    destruct op; try discriminate; try apply Hrec; try (apply Hnow; lia);
      destruct (json.do_stateEndValue s1 " "%char) as [s2 op2];
      destruct (json.is_scanEnd op2); try apply Hrec; apply Hnow; lia.
Qed.

End Scanning.

(** ** Reading one value through the limited reader *)

Section Decoding.
Context {C : flate.Codec}.

Lemma skipn_app_le {A} (k : nat) (a b : list A) :
  (k <= List.length a)%nat -> skipn k (a ++ b) = skipn k a ++ b.
Proof.
  intros Hk. rewrite skipn_app.
  replace (k - List.length a)%nat with O by lia. reflexivity.
Qed.

Lemma firstn_app_le {A} (k : nat) (a b : list A) :
  (k <= List.length a)%nat -> firstn k (a ++ b) = firstn k a.
Proof.
  intros Hk. rewrite firstn_app.
  replace (k - List.length a)%nat with O by lia. cbn [firstn]. apply app_nil_r.
Qed.

(** If the stream, scanned as a whole, holds a complete value ending at
    [n], and the budget reaches past [n], then [readValue]'s loop finds
    that value: it reads on until the scan stops, never beyond what the
    budget allows, and what it read is a prefix of the stream. *)
Lemma readValue_loop_value (D : bytes) (n : nat) (sv : json.scanner) :
  json.scan_buf json.reset D 0 = json.Value n sv ->
  forall fuel (dec : @json.Decoder (io.LimitedReader gzip.Reader)) sp e,
    json.scanp dec = O ->
    json.buf dec ++ gzip.payload (io.R_ (json.r dec)) = D ->
    (sp <= List.length (json.buf dec))%nat ->
    json.scan_buf json.reset (firstn sp D) 0 = json.More sp (json.scan dec) ->
    (List.length (json.buf dec) <= json.bufcap dec)%nat ->
    (e <> None ->
     gzip.payload (io.R_ (json.r dec)) = [] \/ io.N (json.r dec) <= 0) ->
    Z.of_nat n < len (json.buf dec) + io.N (json.r dec) ->
    match e with
    | None => (io.reads_bound (io.R_ (json.r dec)) + 2 <= fuel)%nat
    | Some _ => (1 <= fuel)%nat
    end ->
    exists dec',
      json.readValue_loop fuel dec sp e = (dec', (n, None))
      /\ json.scanp dec' = O
      /\ json.buf dec' ++ gzip.payload (io.R_ (json.r dec')) = D
      /\ gzip.final (io.R_ (json.r dec')) = gzip.final (io.R_ (json.r dec))
      /\ len (json.buf dec') + io.N (json.r dec')
         = len (json.buf dec) + io.N (json.r dec)
      /\ (n <= List.length (json.buf dec'))%nat
      /\ json.derr dec' = json.derr dec.
Proof.
  intros HD fuel. induction fuel as [|fuel IH];
    intros dec sp e Hscanp Hdata Hsp Hscan Hcap He Hbudget Hfuel.
  { destruct e; lia. }
  (* the scan of the whole stream, split at [sp] and at the buffer's end *)
  assert (Hrest : json.scan_buf (json.scan dec)
                    (skipn sp (json.buf dec)
                     ++ gzip.payload (io.R_ (json.r dec))) sp
                  = json.Value n sv).
  { rewrite <- skipn_app_le by exact Hsp. rewrite Hdata.
    rewrite <- (firstn_skipn sp D) in HD at 1.
    rewrite scan_buf_app, Hscan in HD. exact HD. }
  rewrite scan_buf_app in Hrest.
  cbn [json.readValue_loop].
  destruct (json.scan_buf (json.scan dec) (skipn sp (json.buf dec)) sp)
    as [n' s' | s' | sp' s'] eqn:Hbuf.
  - (* the value ends in what is buffered *)
    inversion Hrest; subst n' s'.
    exists (json.set_scan dec sv). rewrite Hscanp, Nat.sub_0_r.
    cbn [json.set_scan json.scanp json.buf json.r json.derr].
    destruct (scan_buf_Value _ _ _ _ _ Hbuf) as [Hn _].
    rewrite length_skipn in Hn.
    repeat split; auto; lia.
  - discriminate Hrest.
  - (* the buffer is used up: the value ends in what is still to come *)
    pose proof (scan_buf_More _ _ _ _ _ Hbuf) as Hsp'.
    rewrite length_skipn in Hsp'.
    assert (Hsp'' : sp' = List.length (json.buf dec)) by lia. clear Hsp'.
    subst sp'.
    destruct (scan_buf_Value _ _ _ _ _ Hrest) as [Hn Hne].
    assert (HN : 0 < io.N (json.r dec)) by (unfold len in *; lia).
    destruct e as [e0|].
    { destruct He as [He | He]; [discriminate | contradiction | lia]. }
    clear He.
    rewrite Hscanp, Nat.sub_0_r.
    unfold json.refill.
    cbn [json.set_scan json.scanp json.buf json.bufcap json.r json.scan json.derr].
    rewrite Hscanp. change (Nat.ltb 0 0) with false. cbv iota.
    set (cap1 := if Nat.ltb (json.bufcap dec - List.length (json.buf dec)) json.minRead
                 then (2 * json.bufcap dec + json.minRead)%nat
                 else json.bufcap dec).
    assert (Hcap1 : (List.length (json.buf dec) < cap1)%nat).
    { unfold cap1, json.minRead.
      destruct (Nat.ltb_spec (json.bufcap dec - List.length (json.buf dec)) 512); lia. }
    destruct (json.r dec) as [z N] eqn:Hr. cbn [io.R_ io.N] in *.
    rewrite LimitedReader_Read_eq.
    destruct (Z.leb_spec N 0) as [Hle | _]; [lia|].
    set (k := capped (cap1 - List.length (json.buf dec)) N).
    destruct (gzip.Read z k) as [[c e'] z1] eqn:HR.
    destruct (gzip_Read_spec _ _ _ _ _ HR) as (Hpay & Hfin & Hlen & He' & Hprog).
    assert (Hk : (0 < k)%nat) by (apply capped_pos; lia).
    assert (Hkle : (k <= cap1 - List.length (json.buf dec))%nat)
      by apply capped_le_k.
    cbn [json.scanp Nat.add].
    edestruct (IH (json.mkDecoder (io.mkLimitedReader z1 (N - len c))
                     (json.buf dec ++ c) cap1 0 s' (json.derr dec))
                  (List.length (json.buf dec)) e')
      as (dec' & Hloop & H1 & H2 & H3 & H4 & H5 & H6);
      cbn [json.scanp json.buf json.bufcap json.r json.scan json.derr io.R_ io.N].
    + reflexivity.
    + rewrite <- app_assoc, <- Hpay. exact Hdata.
    + rewrite length_app. lia.
    + assert (Hb : firstn sp D ++ skipn sp (json.buf dec) = json.buf dec).
      { rewrite <- Hdata, firstn_app_le by exact Hsp. apply firstn_skipn. }
      rewrite <- Hdata, firstn_app_le, firstn_all by lia.
      rewrite <- Hb at 1.
      rewrite scan_buf_app, Hscan. exact Hbuf.
    + rewrite length_app. lia.
    + intros Hne'. left. destruct He' as [-> | [_ Hnil]]; [contradiction | exact Hnil].
    + rewrite len_app. lia.
    + destruct He' as [-> | [-> _]]; [| lia].
      specialize (Hprog eq_refl Hk). lia.
    + cbn [json.scanp json.buf json.bufcap json.r json.scan json.derr io.R_ io.N]
        in H3, H4, H6.
      exists dec'. split; [exact Hloop|].
      repeat split; auto.
      * congruence.
      * rewrite H4, len_app. lia.
Qed.

(** [Decode] on a fresh decoder, when the stream begins with a complete
    value that the budget covers: the value's text is unmarshalled, and
    the reader is left somewhere behind it, its budget lowered by exactly
    what was read. *)
Lemma Decode_value {T} `{GoType T} (gr : gzip.Reader) (maxU : Z) (x : T)
      (n : nat) (sv : json.scanner) :
  json.scan_buf json.reset (gzip.payload gr) 0 = json.Value n sv ->
  Z.of_nat n < maxU ->
  exists dec,
    json.Decode (json.NewDecoder (io.mkLimitedReader gr maxU)) x
    = ((dec, fst (unmarshal (firstn n (gzip.payload gr)) x)),
       snd (unmarshal (firstn n (gzip.payload gr)) x))
    /\ json.buf dec ++ gzip.payload (io.R_ (json.r dec)) = gzip.payload gr
    /\ gzip.final (io.R_ (json.r dec)) = gzip.final gr
    /\ len (json.buf dec) + io.N (json.r dec) = maxU.
Proof.
  intros Hscan Hbudget.
  destruct (readValue_loop_value _ _ _ Hscan
              (2 + io.reads_bound gr)
              (json.NewDecoder (io.mkLimitedReader gr maxU)) 0 None)
    as (dec1 & Hloop & H1 & H2 & H3 & H4 & H5 & H6);
    cbn [json.NewDecoder json.scanp json.buf json.bufcap json.r json.scan
         json.derr io.R_ io.N app List.length firstn json.scan_buf];
    try reflexivity; try lia; try (intros; congruence).
  { change (len (@nil byte)) with 0. lia. }
  cbn [json.NewDecoder json.scanp json.buf json.bufcap json.r json.scan
         json.derr io.R_ io.N app List.length] in H3, H4, H6.
  change (len (@nil byte)) with 0 in H4.
  assert (HRV : json.readValue (json.NewDecoder (io.mkLimitedReader gr maxU))
                = (dec1, (n, None))) by exact Hloop.
  unfold json.Decode.
  change (json.derr (json.NewDecoder (io.mkLimitedReader gr maxU)))
    with (@None liberr).
  cbv iota. rewrite HRV, H1. cbn [skipn].
  replace (firstn n (json.buf dec1)) with (firstn n (gzip.payload gr))
    by (rewrite <- H2; apply firstn_app_le; exact H5).
  destruct (unmarshal (firstn n (gzip.payload gr)) x) as [x' e'].
  eexists. split; [reflexivity|].
  cbn [json.buf json.r fst snd]. repeat split; auto; lia.
Qed.

(** A stream that begins with a complete value, ends cleanly and is read
    with enough budget: [Decompress] succeeds with what [Unmarshal] made
    of the value's text. *)
Lemma Decompress_body_ok {T} `{GoType T} (gr : gzip.Reader) (maxU : Z)
      (x v : T) (n : nat) (sv : json.scanner) :
  json.scan_buf json.reset (gzip.payload gr) 0 = json.Value n sv ->
  Z.of_nat n < maxU ->
  gzip.final gr = EOF ->
  unmarshal (firstn n (gzip.payload gr)) x = (v, None) ->
  Decompress_body gr x maxU = (Some v, None).
Proof.
  intros Hscan Hbudget Hfin Hun.
  destruct (Decode_value gr maxU x n sv Hscan Hbudget)
    as (dec & HD & Hdata & Hfin' & HN).
  unfold Decompress_body. rewrite HD, Hun. cbn [fst snd].
  unfold io.Copy_Discard.
  destruct (json.r dec) as [z N] eqn:Hr. cbn [io.R_ io.N] in *.
  destruct (discard_clean (S (io.reads_bound (io.mkLimitedReader z N))) z N 0)
    as (cnt & lr & Hc).
  - cbn [io.reads_bound io.LimitedReader_Reader io.R_]. lia.
  - congruence.
  - rewrite Hc. reflexivity.
Qed.

(** The same stream ending in an error [e], read with more budget than it
    has bytes: the value is stored, and the drain reports [e]. *)
Lemma Decompress_body_unverified {T} `{GoType T} (gr : gzip.Reader) (maxU : Z)
      (x v : T) (n : nat) (sv : json.scanner) (e : liberr) :
  json.scan_buf json.reset (gzip.payload gr) 0 = json.Value n sv ->
  len (gzip.payload gr) < maxU ->
  gzip.final gr = e -> is_EOF e = false ->
  unmarshal (firstn n (gzip.payload gr)) x = (v, None) ->
  Decompress_body gr x maxU
  = (Some v, Some (errors.Wrapf e errors.InternalServerError
                     "failed to verify complete gzip stream")).
Proof.
  intros Hscan Hbudget Hfin He Hun.
  destruct (scan_buf_Value _ _ _ _ _ Hscan) as [Hn _].
  destruct (Decode_value gr maxU x n sv Hscan) as (dec & HD & Hdata & Hfin' & HN).
  { unfold len in Hbudget. lia. }
  unfold Decompress_body. rewrite HD, Hun. cbn [fst snd].
  unfold io.Copy_Discard.
  destruct (json.r dec) as [z N] eqn:Hr. cbn [io.R_ io.N] in *.
  assert (Hlen : len (gzip.payload gr) = len (json.buf dec) + len (gzip.payload z))
    by (rewrite <- Hdata; apply len_app).
  destruct (discard_within (S (io.reads_bound (io.mkLimitedReader z N))) z N 0)
    as (cnt & z' & Hc).
  - cbn [io.reads_bound io.LimitedReader_Reader io.R_]. lia.
  - lia.
  - rewrite Hc. unfold err_of. rewrite Hfin', Hfin, He. cbn [io.N].
    destruct (Z.leb_spec (N - len (gzip.payload z)) 0); [lia | reflexivity].
Qed.

(** [Decompress] once its arguments are checked. *)
Lemma Decompress_unfold {T} `{GoType T} (blob : bytes) (x : T) (maxU : Z) :
  blob <> [] ->
  Decompress blob (Some x) maxU
  = match gzip.NewReader blob with
    | inl err =>
        (Some x, Some (errors.Wrapf err errors.InternalServerError
                         "failed to create gzip reader"))
    | inr gr => Decompress_body gr x (effective maxU)
    end.
Proof.
  intros Hne. unfold Decompress.
  destruct blob as [|b blob]; [contradiction|].
  replace (len (b :: blob) =? 0) with false
    by (symmetry; apply Z.eqb_neq; unfold len; cbn [List.length]; lia).
  reflexivity.
Qed.

End Decoding.

(** ** The storing codec is lawful *)

Section Stored.

Lemma Uint16_PutUint16 (x : Z) (rest : bytes) :
  0 <= x < 65536 -> gzip.Uint16 (stored.PutUint16 x ++ rest) = x.
Proof.
  intros Hx. unfold stored.PutUint16, gzip.Uint16. cbn [app].
  rewrite !byte_val_of.
  rewrite <- (Z.rem_mul_r x 256 256) by lia.
  apply Z.mod_small. lia.
Qed.

Lemma inflate_block (final : bool) (c rest acc : bytes) (used fuel : nat) :
  len c <= 65535 ->
  stored.inflate_loop (S fuel) (stored.block final c ++ rest) acc used
  = if final then (acc ++ c, inr (used + 5 + List.length c)%nat)
    else stored.inflate_loop fuel rest (acc ++ c) (used + 5 + List.length c)%nat.
Proof.
  intros Hc. pose proof (len_nonneg c) as Hc0.
  unfold stored.block, stored.PutUint16.
  cbn [app stored.inflate_loop].
  change [byte_of (len c); byte_of (len c / 256)]
    with (stored.PutUint16 (len c) ++ []).
  change [byte_of (65535 - len c); byte_of ((65535 - len c) / 256)]
    with (stored.PutUint16 (65535 - len c) ++ []).
  rewrite !Uint16_PutUint16 by lia.
  rewrite byte_val_of.
  replace (Z.shiftr ((if final then 1 else 0) mod 256) 1 mod 4 =? 0) with true
    by (destruct final; reflexivity).
  rewrite Z.eqb_refl. cbn [negb].
  replace (len (c ++ rest) <? len c) with false
    by (symmetry; apply Z.ltb_ge; rewrite len_app; pose proof (len_nonneg rest); lia).
  replace (Z.to_nat (len c)) with (List.length c) by (unfold len; lia).
  rewrite firstn_app, firstn_all, Nat.sub_diag. cbn [firstn].
  rewrite skipn_app, skipn_all, Nat.sub_diag. cbn [skipn app].
  rewrite app_nil_r.
  destruct final; reflexivity.
Qed.

Lemma length_block (final : bool) (c : bytes) :
  List.length (stored.block final c) = (5 + List.length c)%nat.
Proof. reflexivity. Qed.

Lemma inflate_blocks (fuel : nat) :
  forall d rest acc used fuel2,
    (List.length d <= fuel)%nat ->
    (List.length (stored.blocks fuel d) <= fuel2)%nat ->
    stored.inflate_loop fuel2 (stored.blocks fuel d ++ rest) acc used
    = (acc ++ d, inr (used + List.length (stored.blocks fuel d))%nat).
Proof.
  induction fuel as [|fuel IH]; intros d rest acc used fuel2 Hd Hf;
    cbn [stored.blocks] in *.
  - destruct d; [| cbn in Hd; lia].
    destruct fuel2 as [|fuel2]; [cbn in Hf; lia|].
    rewrite inflate_block by (cbn; lia). rewrite length_block.
    f_equal. f_equal. lia.
  - destruct (Z.leb_spec (len d) stored.maxStoreBlockSize) as [Hle | Hgt].
    + destruct fuel2 as [|fuel2]; [rewrite length_block in Hf; lia|].
      rewrite inflate_block by exact Hle. rewrite length_block.
      f_equal. f_equal. lia.
    + set (m := Z.to_nat stored.maxStoreBlockSize) in *.
      assert (Hm : List.length (firstn m d) = m).
      { rewrite length_firstn. unfold len, stored.maxStoreBlockSize in *. lia. }
      rewrite length_app, length_block, Hm in Hf |- *.
      destruct fuel2 as [|fuel2]; [lia|].
      rewrite <- app_assoc.
      rewrite inflate_block
        by (unfold len; rewrite Hm; unfold m, stored.maxStoreBlockSize; lia).
      rewrite IH.
      * rewrite <- app_assoc, firstn_skipn, Hm. f_equal. f_equal. lia.
      * rewrite length_skipn. unfold m, stored.maxStoreBlockSize. lia.
      * lia.
Qed.

#[global] Instance stored_Lawful : flate.Lawful stored.codec.
Proof.
  constructor. intros d rest.
  cbn [flate.inflate flate.deflate stored.codec].
  unfold stored.inflate, stored.deflate.
  rewrite inflate_blocks.
  - reflexivity.
  - lia.
  - rewrite length_app. lia.
Qed.

End Stored.

(** ** The fuel is enough *)

(** The loops of the model take fuel; each is given enough for the result
    not to depend on it.  Any two amounts above the bound give the same
    result, so the out-of-fuel branches are never the ones taken. *)

Section Fuel.
Context {C : flate.Codec}.

Lemma window_pos : (0 < Z.to_nat flate.window)%nat.
Proof. unfold flate.window. lia. Qed.

Lemma flushes_fuel (last : bytes -> gzip.Reader) (f1 : nat) :
  forall f2 d,
    (List.length d <= f1)%nat -> (List.length d <= f2)%nat ->
    gzip.flushes f1 d last = gzip.flushes f2 d last.
Proof.
  pose proof window_pos as HW.
  induction f1 as [|f1 IH]; intros f2 d H1 H2.
  - destruct d; [|cbn in H1; lia].
    destruct f2; reflexivity.
  - destruct f2 as [|f2].
    + destruct d; [reflexivity | cbn in H2; lia].
    + cbn [gzip.flushes]. destruct (Z.ltb_spec (len d) flate.window) as [Hlt | Hge].
      * reflexivity.
      * f_equal. apply IH; rewrite length_skipn; lia.
Qed.

Lemma ReadFull_length (r : bytes) (k : nat) a b :
  gzip.ReadFull r k = inr (a, b) ->
  (List.length b + k = List.length r)%nat.
Proof.
  unfold gzip.ReadFull. destruct (Nat.leb_spec k (List.length r)) as [Hk | Hk].
  - intros H. inversion H; subst. rewrite length_skipn. lia.
  - destruct r; discriminate.
Qed.

Lemma readString_length (i : nat) :
  forall r r', gzip.readString i r = inr r' ->
               (List.length r' < List.length r)%nat.
Proof.
  induction i as [|i IH]; intros r r'; cbn [gzip.readString]; [discriminate|].
  destruct r as [|c r]; [discriminate|].
  destruct (Ascii.eqb c Ascii.zero).
  - intros H. inversion H; subst. cbn. lia.
  - intros H. apply IH in H. cbn. lia.
Qed.

(** A parsed header takes at least its ten fixed bytes. *)
Lemma readHeader_length (r r' : bytes) :
  gzip.readHeader r = inr r' -> (List.length r' + 10 <= List.length r)%nat.
Proof.
  unfold gzip.readHeader.
  destruct (gzip.ReadFull r 10) as [e | [h r1]] eqn:H10; [discriminate|].
  apply ReadFull_length in H10.
  destruct (negb _); [discriminate|].
  set (flg := byte_val (nth 3 h Ascii.zero)).
  (* the optional fields only shorten what is left *)
  assert (Hextra :
            forall x,
              (if gzip.has_flag flg gzip.flagExtra
               then match gzip.ReadFull r1 2 with
                    | inl e => inl (noEOF e)
                    | inr (l2, r2) =>
                        match gzip.ReadFull r2 (Z.to_nat (gzip.Uint16 l2)) with
                        | inl e => inl (noEOF e)
                        | inr (_, r3) => inr r3
                        end
                    end
               else inr r1) = inr x ->
              (List.length x <= List.length r1)%nat).
  { intros x. destruct (gzip.has_flag flg gzip.flagExtra).
    - destruct (gzip.ReadFull r1 2) as [e | [l2 r2]] eqn:H2; [discriminate|].
      apply ReadFull_length in H2.
      destruct (gzip.ReadFull r2 _) as [e | [l3 r3]] eqn:H3; [discriminate|].
      apply ReadFull_length in H3.
      intros H; inversion H; subst. lia.
    - intros H; inversion H; subst. lia. }
  destruct (if gzip.has_flag flg gzip.flagExtra then _ else _) as [e | x1];
    [discriminate|].
  specialize (Hextra x1 eq_refl).
  assert (Hstr : forall (fl : Z) (x y : bytes),
             (if gzip.has_flag flg fl
              then match gzip.readString 512 x with
                   | inl e => inl (noEOF e)
                   | inr r3 => inr r3
                   end
              else inr x) = inr y ->
             (List.length y <= List.length x)%nat).
  { intros fl x y. destruct (gzip.has_flag flg fl).
    - destruct (gzip.readString 512 x) as [e | r3] eqn:Hs; [discriminate|].
      apply readString_length in Hs. intros H; inversion H; subst. lia.
    - intros H; inversion H; subst. lia. }
  destruct (if gzip.has_flag flg gzip.flagName then _ else _) as [e | x2] eqn:Hn;
    [discriminate|].
  apply Hstr in Hn.
  destruct (if gzip.has_flag flg gzip.flagComment then _ else _) as [e | x3] eqn:Hc;
    [discriminate|].
  apply Hstr in Hc.
  destruct (gzip.has_flag flg gzip.flagHdrCrc).
  - destruct (gzip.ReadFull x3 2) as [e | [d2 r3]] eqn:H2; [discriminate|].
    apply ReadFull_length in H2.
    destruct (_ =? _); [|discriminate].
    intros H; inversion H; subst. lia.
  - intros H; inversion H; subst. lia.
Qed.

Lemma members_fuel (f1 : nat) :
  forall f2 r,
    (List.length r < f1)%nat -> (List.length r < f2)%nat ->
    gzip.members f1 r = gzip.members f2 r.
Proof.
  induction f1 as [|f1 IH]; intros f2 r H1 H2; [lia|].
  destruct f2 as [|f2]; [lia|].
  cbn [gzip.members].
  destruct (flate.inflate r) as [d [e | k]]; [reflexivity|].
  destruct (gzip.ReadFull (skipn k r) 8) as [e | [ft r']] eqn:H8; [reflexivity|].
  apply ReadFull_length in H8. rewrite length_skipn in H8.
  destruct (negb _); [reflexivity|].
  destruct (gzip.readHeader r') as [e | r''] eqn:Hh; [reflexivity|].
  apply readHeader_length in Hh.
  rewrite (IH f2 r'') by lia. reflexivity.
Qed.

(** Opening a reader: any fuel above the blob's length gives the same
    reader. *)
Lemma NewReader_fuel (b : bytes) (fuel : nat) :
  (List.length b <= fuel)%nat ->
  gzip.NewReader b
  = match gzip.readHeader b with
    | inl e => inl e
    | inr r => inr (gzip.members fuel r)
    end.
Proof.
  intros Hf. unfold gzip.NewReader.
  destruct (gzip.readHeader b) as [e | r] eqn:Hh; [reflexivity|].
  apply readHeader_length in Hh.
  f_equal. apply members_fuel; lia.
Qed.

Lemma discard_fuel (f1 : nat) :
  forall f2 (z : gzip.Reader) (n n0 : Z),
    (io.reads_bound z < f1)%nat -> (io.reads_bound z < f2)%nat ->
    io.discard_ReadFrom f1 (io.mkLimitedReader z n) n0
    = io.discard_ReadFrom f2 (io.mkLimitedReader z n) n0.
Proof.
  induction f1 as [|f1 IH]; intros f2 z n n0 H1 H2; [lia|].
  destruct f2 as [|f2]; [lia|].
  cbn [io.discard_ReadFrom]. rewrite LimitedReader_Read_eq.
  destruct (Z.leb_spec n 0) as [Hle | Hgt]; [reflexivity|].
  destruct (gzip.Read z (capped io.blackHole n)) as [[c e] z1] eqn:HR.
  destruct (gzip_Read_spec _ _ _ _ _ HR) as (_ & _ & _ & _ & Hprog).
  destruct e as [e|]; [reflexivity|].
  specialize (Hprog eq_refl (capped_pos _ _ blackHole_pos Hgt)).
  apply IH; lia.
Qed.

Lemma readValue_loop_fuel (f1 : nat) :
  forall f2 (dec : @json.Decoder (io.LimitedReader gzip.Reader)) sp e,
    (List.length (json.buf dec) <= json.bufcap dec)%nat ->
    match e with
    | None => (io.reads_bound (io.R_ (json.r dec)) + 2 <= f1)%nat
              /\ (io.reads_bound (io.R_ (json.r dec)) + 2 <= f2)%nat
    | Some _ => (1 <= f1)%nat /\ (1 <= f2)%nat
    end ->
    json.readValue_loop f1 dec sp e = json.readValue_loop f2 dec sp e.
Proof.
  induction f1 as [|f1 IH]; intros f2 dec sp e Hcap Hf.
  { destruct e; lia. }
  destruct f2 as [|f2]; [destruct e; lia|].
  cbn [json.readValue_loop].
  destruct (json.scan_buf (json.scan dec) (skipn sp (json.buf dec)) sp)
    as [n' s' | s' | sp' s']; try reflexivity.
  destruct e as [e0|]; [reflexivity|].
  unfold json.refill.
  cbn [json.set_scan json.scanp json.buf json.bufcap json.r json.scan json.derr].
  set (b := if Nat.ltb 0 (json.scanp dec)
            then skipn (json.scanp dec) (json.buf dec) else json.buf dec).
  assert (Hb : (List.length b <= json.bufcap dec)%nat).
  { unfold b. destruct (Nat.ltb 0 (json.scanp dec)); [rewrite length_skipn|]; lia. }
  set (cap1 := if Nat.ltb (json.bufcap dec - List.length b) json.minRead
               then (2 * json.bufcap dec + json.minRead)%nat
               else json.bufcap dec).
  assert (Hcap1 : (List.length b < cap1)%nat).
  { unfold cap1, json.minRead.
    destruct (Nat.ltb_spec (json.bufcap dec - List.length b) 512); lia. }
  destruct (json.r dec) as [z N] eqn:Hr. cbn [io.R_ io.N] in *.
  rewrite LimitedReader_Read_eq.
  destruct (Z.leb_spec N 0) as [Hle | Hgt].
  - apply IH; cbn [json.buf json.bufcap]; [rewrite app_nil_r|]; lia.
  - destruct (gzip.Read z (capped (cap1 - List.length b) N)) as [[c e'] z1] eqn:HR.
    destruct (gzip_Read_spec _ _ _ _ _ HR) as (_ & _ & Hlen & _ & Hprog).
    pose proof (capped_le_k (cap1 - List.length b) N) as Hk.
    apply IH; cbn [json.buf json.bufcap json.r io.R_].
    + rewrite length_app. lia.
    + destruct e' as [e'|]; [lia|].
      assert (Hpos : (0 < capped (cap1 - List.length b) N)%nat)
        by (apply capped_pos; lia).
      specialize (Hprog eq_refl Hpos). lia.
Qed.

End Fuel.

(** ** [Compress] and [Decompress] on what the writer wrote *)

Section Codec.
Context {C : flate.Codec}.

(** [Compress] of a non-nil interface value: the gzip of the value's JSON
    text and a newline, or the encoder's error and no bytes. *)
Lemma Compress_iface {T} {G : GoType T} (v : T) :
  Compress (iface v)
  = match marshal v with
    | inr text => (Some (gzipCompressRaw (text ++ [newline])), None)
    | inl e =>
        (None, Some (errors.Wrapf e errors.InternalServerError
                       ("failed to encode JSON (type:" ++ type_name ++ ")")))
    end.
Proof.
  unfold Compress, json.Encode. destruct (marshal v); reflexivity.
Qed.

Lemma gzipCompressRaw_nonempty (d : bytes) : gzipCompressRaw d <> [].
Proof. rewrite gzipCompressRaw_eq. discriminate. Qed.

Lemma truncateEnd_nonempty (d : bytes) : truncateEnd (gzipCompressRaw d) 4 <> [].
Proof.
  intros H. pose proof (f_equal (@List.length byte) H) as Hl.
  revert Hl. unfold truncateEnd. rewrite gzipCompressRaw_eq.
  set (blob := gzip.header ++ flate.deflate d ++ gzip.footer d).
  assert (Hb : 18 <= len blob).
  { unfold blob. rewrite !len_app. change (len gzip.header) with 10.
    change (len (gzip.footer d)) with 8.
    pose proof (len_nonneg (flate.deflate d)). lia. }
  replace (4 <=? 0) with false by reflexivity.
  replace (4 >=? len blob) with false
    by (rewrite Z.geb_leb; symmetry; apply Z.leb_gt; lia).
  cbn [orb]. rewrite length_firstn. unfold len in *. cbn [List.length]. lia.
Qed.

Context {L : flate.Lawful C}.

Lemma Decompress_raw_ok {T} `{GoType T} (d : bytes) (x v : T) (limit : Z)
      (n : nat) (sv : json.scanner) :
  json.scan_buf json.reset d 0 = json.Value n sv ->
  Z.of_nat n < effective limit ->
  unmarshal (firstn n d) x = (v, None) ->
  Decompress (gzipCompressRaw d) (Some x) limit = (Some v, None).
Proof.
  intros Hscan Hbudget Hun.
  rewrite Decompress_unfold by apply gzipCompressRaw_nonempty.
  rewrite NewReader_gzipCompressRaw.
  apply (Decompress_body_ok _ _ _ _ n sv);
    rewrite ?payload_stream, ?final_stream; auto.
Qed.

Lemma Decompress_raw_truncated {T} `{GoType T} (d : bytes) (x v : T) (limit : Z)
      (n : nat) (sv : json.scanner) :
  json.scan_buf json.reset d 0 = json.Value n sv ->
  len d < effective limit ->
  unmarshal (firstn n d) x = (v, None) ->
  Decompress (truncateEnd (gzipCompressRaw d) 4) (Some x) limit
  = (Some v, Some (errors.Wrapf ErrUnexpectedEOF errors.InternalServerError
                     "failed to verify complete gzip stream")).
Proof.
  intros Hscan Hbudget Hun.
  rewrite Decompress_unfold by apply truncateEnd_nonempty.
  rewrite NewReader_truncated.
  apply (Decompress_body_unverified _ _ _ _ n sv);
    rewrite ?payload_stream, ?final_stream; auto.
Qed.

End Codec.

(** ** Encodable values *)

Section EncodableValues.
Import types.

Definition at_top : json.scanner := json.mkScanner json.stateEndTop true [] None.

Lemma Encodable_bool (b : bool) :
  Encodable b (B (if b then "true" else "false")).
Proof.
  destruct b; (split; [reflexivity | split]);
    try (intros rest; exists at_top; reflexivity);
    intros x; reflexivity.
Qed.

Lemma Encodable_nil_ptr {T} `{GoType T} : Encodable (@None T) (B "null").
Proof.
  split; [reflexivity | split].
  - intros rest. exists at_top. reflexivity.
  - intros x. reflexivity.
Qed.

(** A pointer to an encodable value is encodable, unless the value's text
    is [null]: that reads back as the nil pointer. *)
Lemma Encodable_ptr {T} `{GoType T} (v : T) (text : bytes) :
  Encodable v text -> kind_of text <> KNull -> Encodable (Some v) text.
Proof.
  intros (Hm & Hs & Hu) Hk. split; [exact Hm | split; [exact Hs|]].
  intros p. cbn [unmarshal GoType_ptr].
  destruct (kind_of text); try contradiction; rewrite Hu; reflexivity.
Qed.

Lemma Encodable_s100 : Encodable examples.s100 examples.text100.
Proof.
  split; [vm_compute; reflexivity | split].
  - intros rest. exists at_top. vm_compute. reflexivity.
  - intros x. vm_compute. reflexivity.
Qed.

End EncodableValues.

(* ================================================================== *)
(** * The claims *)

Section Claims.
Import types.



(** C5 (default limit).  A limit of zero, and any negative limit, is
    replaced by the 4 MiB default: [Decompress] with such a limit returns
    exactly what it returns with the limit [4*1024*1024], for every blob
    and destination.  So a limit [<= 0] is never "no limit". *)
Theorem Decompress_default_limit
        {C : flate.Codec} {T} {G : GoType T}
        (blob : bytes) (out : option T) (limit : Z) :
  limit <= 0 ->
  Decompress blob out limit = Decompress blob out (4 * 1024 * 1024).
Proof.
  intros Hle. unfold Decompress.
  destruct (len blob =? 0); [reflexivity|].
  destruct out as [x|]; [|reflexivity].
  replace (limit <=? 0) with true by (symmetry; apply Z.leb_le; exact Hle).
  change (4 * 1024 * 1024 <=? 0) with false.
  reflexivity.
Qed.

Lemma Decompress_default_limit_witness :
  Decompress (C := stored.codec) examples.compressed_true (Some false) 0
  = Decompress (C := stored.codec) examples.compressed_true (Some false)
      (4 * 1024 * 1024).
Proof.
  apply (Decompress_default_limit (C := stored.codec)
           examples.compressed_true (Some false) 0).
  lia.
Defined.

(** C6 (null rejection).  [Compress(nil)] returns no bytes and the
    [InvalidParams] error "data cannot be nil"; [Decompress] of an empty
    blob returns the [InvalidParams] error "compressedData cannot be
    empty", whatever the destination, nil included; [Decompress] of a
    non-empty blob into a nil destination returns the [InvalidParams] error
    "output pointer cannot be nil".  The three hold for every codec and
    every blob, well formed or not: the checks come before anything is
    compressed, parsed or inflated, and the destination is not touched. *)
Theorem null_rejection {C : flate.Codec} {T} {G : GoType T}
        (out : option T) (b : byte) (blob : bytes) (limit : Z) :
  Compress nil_any
  = (None, Some (errors.New errors.InvalidParams "data cannot be nil"))
  /\ Decompress [] out limit
     = (out, Some (errors.New errors.InvalidParams
                     "compressedData cannot be empty"))
  /\ Decompress (b :: blob) (@None T) limit
     = (None, Some (errors.New errors.InvalidParams
                      "output pointer cannot be nil")).
Proof.
  split; [reflexivity | split].
  - unfold Decompress. change (len (@nil byte) =? 0) with true. reflexivity.
  - unfold Decompress.
    replace (len (b :: blob) =? 0) with false; [reflexivity|].
    symmetry. apply Z.eqb_neq. unfold len. cbn [List.length]. lia.
Qed.

(** C8 (magic header).  Whatever bytes [Compress] returns on success start
    with the two gzip magic bytes [0x1f 0x8b]. *)
Theorem Compress_magic {C : flate.Codec} (data : any) (blob : bytes) :
  Compress data = (Some blob, None) ->
  firstn 2 blob = [byte_of 0x1f; byte_of 0x8b].
Proof.
  destruct data as [|T G v].
  - discriminate.
  - rewrite Compress_iface. destruct (marshal v) as [e | text]; [discriminate|].
    intros H. inversion H; subst blob.
    rewrite gzipCompressRaw_eq. reflexivity.
Qed.

Lemma Compress_magic_witness :
  firstn 2 examples.compressed_true = [byte_of 0x1f; byte_of 0x8b].
Proof.
  apply (Compress_magic (C := stored.codec) (iface true) examples.compressed_true).
  reflexivity.
Defined.




(** The same for the drain: the value and 512 bytes are read by the
    decoder, the drain reads the 93 bytes that are left of a budget of
    605, and the bad checksum that comes with them is reported as the
    size limit. *)
Example corruption_reported_as_size_limit :
  Decompress (C := stored.codec) examples.corrupted (Some false) 605
  = (Some true, Some (exceeds 605))
  /\ Decompress (C := stored.codec) examples.corrupted (Some false) 606
     = (Some true,
        Some (errors.Wrapf ErrChecksum errors.InternalServerError
                "failed to verify complete gzip stream")).
Proof. split; vm_compute; reflexivity. Qed.

(** C2 (drain over budget), as the code has it.  When the decode has
    succeeded and more bytes are left in the stream than the limited
    reader's counter allows, [Decompress] returns success: the limited
    reader ends with [io.EOF] when its counter is used up, and
    [io.Copy] takes [io.EOF] for the normal end.  The size-limit error
    the claim asks for is not returned. *)
Theorem drain_over_budget_succeeds
        {C : flate.Codec} {T} {G : GoType T}
        (blob : bytes) (x x1 : T) (limit : Z) (gr : gzip.Reader)
        (dec : json.Decoder) :
  blob <> [] ->
  gzip.NewReader blob = inr gr ->
  json.Decode (json.NewDecoder (io.mkLimitedReader gr (effective limit))) x
  = ((dec, x1), None) ->
  io.N (json.r dec) < len (gzip.payload (io.R_ (json.r dec))) ->
  Decompress blob (Some x) limit = (Some x1, None).
Proof.
  intros Hne Hgr Hdec Hover.
  rewrite Decompress_unfold by exact Hne. rewrite Hgr.
  unfold Decompress_body. rewrite Hdec.
  unfold io.Copy_Discard.
  destruct (json.r dec) as [z n]. cbn [io.R_ io.N] in Hover.
  destruct (discard_over (S (io.reads_bound (io.mkLimitedReader z n))) z n 0)
    as (cnt & lr & Hc).
  - cbn [io.reads_bound io.LimitedReader_Reader io.R_]. lia.
  - exact Hover.
  - rewrite Hc. reflexivity.
Qed.

Lemma drain_over_budget_succeeds_witness :
  Decompress (C := stored.codec) (gzipCompressRaw examples.padded)
             (Some false) 10
  = (Some true, None).
Proof.
  apply (drain_over_budget_succeeds (C := stored.codec)
           (gzipCompressRaw examples.padded) false true 10
           (stream examples.padded EOF)
           (fst (fst (json.Decode
                        (json.NewDecoder
                           (io.mkLimitedReader (stream examples.padded EOF) 10))
                        false)))).
  - discriminate.
  - reflexivity.
  - reflexivity.
  - reflexivity.
Defined.

(** C3 (truncation detection), as the code has it.  For every encodable
    value, [Decompress] of the blob [Compress] returned with its last four
    bytes cut off, with a limit greater than the length of the
    decompressed text, fails: the error is the [InternalServerError]
    "failed to verify complete gzip stream" wrapping
    [io.ErrUnexpectedEOF].  The destination holds the value by then. *)
Theorem truncation_detected
        {C : flate.Codec} {L : flate.Lawful C} {T} {G : GoType T}
        (v out : T) (text : bytes) (limit : Z) :
  Encodable v text ->
  len text + 1 < effective limit ->
  exists blob,
    Compress (iface v) = (Some blob, None)
    /\ Decompress (truncateEnd blob 4) (Some out) limit
       = (Some v,
          Some (errors.Wrapf ErrUnexpectedEOF errors.InternalServerError
                  "failed to verify complete gzip stream")).
Proof.
  intros (Hm & Hs & Hu) Hlimit.
  exists (gzipCompressRaw (text ++ [newline])). split.
  - rewrite Compress_iface, Hm. reflexivity.
  - destruct (Hs []) as [sv Hscan].
    apply (Decompress_raw_truncated _ _ _ _ (List.length text) sv).
    + exact Hscan.
    + rewrite len_app. change (len [newline]) with 1. exact Hlimit.
    + rewrite firstn_app, firstn_all, Nat.sub_diag. cbn [firstn].
      rewrite app_nil_r. apply Hu.
Qed.

Lemma truncation_detected_witness :
  exists blob,
    Compress (C := stored.codec) (iface true) = (Some blob, None)
    /\ Decompress (truncateEnd blob 4) (Some false) 1024
       = (Some true,
          Some (errors.Wrapf ErrUnexpectedEOF errors.InternalServerError
                  "failed to verify complete gzip stream")).
Proof.
  apply (truncation_detected (C := stored.codec) true false (B "true") 1024).
  - exact (Encodable_bool true).
  - vm_compute. reflexivity.
Defined.

(** C3, as the spec words it, fails on the code: the message of the error
    that [Decompress] returns for the truncated blob of [Compress(true)]
    does not contain "failed to verify complete stream"; it reads "failed
    to verify complete gzip stream". *)
Lemma truncation_message_differs :
  exists e,
    snd (Decompress (C := stored.codec) (truncateEnd examples.compressed_true 4)
                    (Some false) 1024) = Some e
    /\ errors.message e = "failed to verify complete gzip stream"%string
    /\ strings.Contains (errors.message e) "failed to verify complete stream"
       = false.
Proof.
  exists (errors.Wrapf ErrUnexpectedEOF errors.InternalServerError
            "failed to verify complete gzip stream").
  repeat split; vm_compute; reflexivity.
Qed.

(** With a limit equal to the length of the decompressed text the cut is
    not seen at all: the decoder uses up the budget, and the drain ends at
    once.  (The limit 5 is enough to decompress the blob as it was.) *)
Example truncation_unseen_at_exact_limit :
  Decompress (C := stored.codec) examples.compressed_true (Some false) 5
  = (Some true, None)
  /\ Decompress (C := stored.codec) (truncateEnd examples.compressed_true 4)
                (Some false) 5
     = (Some true, None).
Proof. split; vm_compute; reflexivity. Qed.




(** C4 (hard size cap).  [Compress] of the string of one hundred [a]
    succeeds; [Decompress] of the blob with the limit 10 fails with the
    [InvalidParams] error "decompressed size exceeds limit: 10 bytes" and
    leaves the destination as it was; with any limit of at least 103 (the
    hundred bytes, the two quotes and the newline) it succeeds and stores
    the string. *)
Theorem hard_size_cap {C : flate.Codec} {L : flate.Lawful C} (out : string) :
  exists blob,
    Compress (iface examples.s100) = (Some blob, None)
    /\ Decompress blob (Some out) 10 = (Some out, Some (exceeds 10))
    /\ errors.code (exceeds 10) = errors.InvalidParams
    /\ strings.Contains (errors.message (exceeds 10))
         "decompressed size exceeds limit: 10 bytes" = true
    /\ forall limit,
         100 + 3 <= limit ->
         Decompress blob (Some out) limit = (Some examples.s100, None).
Proof.
  destruct Encodable_s100 as (Hm & Hs & Hu).
  exists (gzipCompressRaw (examples.text100 ++ [newline])).
  split; [rewrite Compress_iface, Hm; reflexivity|].
  split.
  { rewrite Decompress_unfold by apply gzipCompressRaw_nonempty.
    rewrite NewReader_gzipCompressRaw. vm_compute. reflexivity. }
  split; [reflexivity|]. split; [vm_compute; reflexivity|].
  intros limit Hlimit.
  destruct (Hs []) as [sv Hscan].
  apply (Decompress_raw_ok _ _ _ _ (List.length examples.text100) sv).
  - exact Hscan.
  - unfold effective. destruct (Z.leb_spec limit 0); [lia|].
    change (Z.of_nat (List.length examples.text100)) with 102. lia.
  - rewrite firstn_app, firstn_all, Nat.sub_diag. cbn [firstn].
    rewrite app_nil_r. apply Hu.
Qed.

Lemma hard_size_cap_witness :
  exists blob,
    Compress (C := stored.codec) (iface examples.s100) = (Some blob, None)
    /\ Decompress blob (Some EmptyString) 10 = (Some EmptyString, Some (exceeds 10))
    /\ errors.code (exceeds 10) = errors.InvalidParams
    /\ strings.Contains (errors.message (exceeds 10))
         "decompressed size exceeds limit: 10 bytes" = true
    /\ forall limit,
         100 + 3 <= limit ->
         Decompress blob (Some EmptyString) limit = (Some examples.s100, None).
Proof.
  exact (hard_size_cap (C := stored.codec) EmptyString).
Defined.

End Claims.

(* ================================================================== *)
(** * Further properties of [Compress] and [Decompress] *)

(** The reader as [Decompress] leaves it: after a failed decode, where the
    decoder stopped; otherwise, where the drain stopped. *)
Definition reader_after {T} `{GoType T} (gr : gzip.Reader) (x : T)
           (maxUncompressed : Z) : io.LimitedReader gzip.Reader :=
  let d := json.Decode
             (json.NewDecoder (io.mkLimitedReader gr maxUncompressed)) x in
  match snd d with
  | Some _ => json.r (fst (fst d))
  | None => snd (io.Copy_Discard (json.r (fst (fst d))))
  end.

(** What [readValue] makes of a stream [D] that ends with [fin], when the
    budget is larger than the stream: the value's end, or the error. *)
Definition read_outcome (D : bytes) (fin : liberr) : nat * option liberr :=
  match json.scan_buf json.reset D 0 with
  | json.Value n _ => (n, None)
  | json.Failed s => (O, json.err s)
  | json.More _ s =>
      if is_EOF fin then
        if json.is_scanEnd (snd (json.do_step s " "%char))
        then (List.length D, None)
        else (O, Some (if json.nonSpace D then ErrUnexpectedEOF else EOF))
      else (O, Some fin)
  end.

Section Further.
Import types.

(** ** What is read, and how much *)

Lemma discard_inv {C : flate.Codec} (fuel : nat) :
  forall (z : gzip.Reader) (n n0 cnt : Z) e lr,
    0 <= n ->
    io.discard_ReadFrom fuel (io.mkLimitedReader z n) n0 = ((cnt, e), lr) ->
    0 <= io.N lr
    /\ gzip.final (io.R_ lr) = gzip.final z
    /\ exists drained,
         gzip.payload z = drained ++ gzip.payload (io.R_ lr)
         /\ len drained = n - io.N lr.
Proof.
  induction fuel as [|fuel IH]; intros z n n0 cnt e lr Hn;
    cbn [io.discard_ReadFrom].
  - intros H; inversion H; subst. cbn [io.N io.R_].
    repeat split; auto. exists []. split; [reflexivity|].
    change (len (@nil byte)) with 0. lia.
  - rewrite LimitedReader_Read_eq.
    destruct (Z.leb_spec n 0) as [Hle | Hgt].
    + cbn [is_EOF]. intros H; inversion H; subst. cbn [io.N io.R_].
      repeat split; auto. exists []. split; [reflexivity|].
      change (len (@nil byte)) with 0. lia.
    + destruct (gzip.Read z (capped io.blackHole n)) as [[c e'] z1] eqn:HR.
      destruct (gzip_Read_spec _ _ _ _ _ HR) as (Hpay & Hfin & Hlen & _ & _).
      pose proof (capped_le io.blackHole n Hgt) as Hcap.
      assert (Hc : len c <= n) by (unfold len; lia).
      destruct e' as [e'|].
      * intros H; inversion H; subst. cbn [io.N io.R_].
        repeat split; auto; try lia.
        exists c. split; [exact Hpay | lia].
      * intros H. apply IH in H; [|lia].
        destruct H as (H0 & Hf & drained & Hd & Hl).
        repeat split; auto; try congruence.
        exists (c ++ drained). split.
        -- rewrite Hpay, Hd. now rewrite app_assoc.
        -- rewrite len_app. lia.
Qed.

Lemma readValue_loop_inv {C : flate.Codec} (fuel : nat) :
  forall (dec dec' : @json.Decoder (io.LimitedReader gzip.Reader)) sp e res,
    json.scanp dec = O ->
    (List.length (json.buf dec) <= json.bufcap dec)%nat ->
    0 <= io.N (json.r dec) ->
    json.readValue_loop fuel dec sp e = (dec', res) ->
    json.scanp dec' = O
    /\ (List.length (json.buf dec') <= json.bufcap dec')%nat
    /\ 0 <= io.N (json.r dec')
    /\ json.buf dec' ++ gzip.payload (io.R_ (json.r dec'))
       = json.buf dec ++ gzip.payload (io.R_ (json.r dec))
    /\ gzip.final (io.R_ (json.r dec')) = gzip.final (io.R_ (json.r dec))
    /\ len (json.buf dec') + io.N (json.r dec')
       = len (json.buf dec) + io.N (json.r dec).
Proof.
  induction fuel as [|fuel IH]; intros dec dec' sp e res Hsp Hcap HN;
    cbn [json.readValue_loop].
  - intros H; inversion H; subst. cbn. repeat split; auto.
  - destruct (json.scan_buf (json.scan dec) (skipn sp (json.buf dec)) sp)
      as [n' s' | s' | sp' s'].
    + intros H; inversion H; subst. cbn. repeat split; auto.
    + intros H; inversion H; subst. cbn. repeat split; auto.
    + destruct e as [e0|].
      * destruct (is_EOF e0).
        -- destruct (json.do_step s' " "%char) as [s2 op].
           destruct (json.is_scanEnd op); intros H; inversion H; subst; cbn;
             repeat split; auto.
        -- intros H; inversion H; subst. cbn. repeat split; auto.
      * unfold json.refill.
        cbn [json.set_scan json.scanp json.buf json.bufcap json.r json.scan
             json.derr].
        rewrite Hsp. change (Nat.ltb 0 0) with false. cbv iota.
        set (cap1 := if Nat.ltb (json.bufcap dec - List.length (json.buf dec))
                                json.minRead
                     then (2 * json.bufcap dec + json.minRead)%nat
                     else json.bufcap dec).
        assert (Hcap1 : (List.length (json.buf dec) < cap1)%nat).
        { unfold cap1, json.minRead.
          destruct (Nat.ltb_spec (json.bufcap dec - List.length (json.buf dec))
                                 512); lia. }
        destruct (json.r dec) as [z N] eqn:Hr. cbn [io.R_ io.N] in *.
        rewrite LimitedReader_Read_eq.
        destruct (Z.leb_spec N 0) as [Hle | Hgt].
        -- intros H. apply IH in H;
             cbn [json.scanp json.buf json.bufcap json.r io.R_ io.N] in *;
             try rewrite app_nil_r in *; try lia.
           destruct H as (H1 & H2 & H3 & H4 & H5 & H6).
           repeat split; auto.
        -- set (k := capped (cap1 - List.length (json.buf dec)) N).
           destruct (gzip.Read z k) as [[c e'] z1] eqn:HR.
           destruct (gzip_Read_spec _ _ _ _ _ HR) as (Hpay & Hfin & Hlen & _ & _).
           pose proof (capped_le (cap1 - List.length (json.buf dec)) N Hgt) as Hk.
           pose proof (capped_le_k (cap1 - List.length (json.buf dec)) N) as Hk'.
           fold k in Hk, Hk'.
           assert (Hc : len c <= N) by (unfold len; lia).
           intros H. apply IH in H;
             cbn [json.scanp json.buf json.bufcap json.r io.R_ io.N] in *;
             try (rewrite length_app; lia); try lia.
           destruct H as (H1 & H2 & H3 & H4 & H5 & H6).
           repeat split; auto.
           ++ rewrite H4, Hpay. now rewrite app_assoc.
           ++ congruence.
           ++ rewrite H6, len_app. lia.
Qed.

Lemma effective_pos (limit : Z) : 0 < effective limit.
Proof.
  unfold effective, defaultMaxDecompressedSize.
  destruct (Z.leb_spec limit 0); lia.
Qed.

(** What [Decode] leaves: the buffered bytes and what the reader still
    has are the stream, and the budget went down by what is buffered. *)
Lemma Decode_inv {C : flate.Codec} {T} `{GoType T}
      (gr : gzip.Reader) (maxU : Z) (x : T) :
  0 <= maxU ->
  let dec := fst (fst (json.Decode
                         (json.NewDecoder (io.mkLimitedReader gr maxU)) x)) in
  0 <= io.N (json.r dec)
  /\ json.buf dec ++ gzip.payload (io.R_ (json.r dec)) = gzip.payload gr
  /\ gzip.final (io.R_ (json.r dec)) = gzip.final gr
  /\ len (json.buf dec) + io.N (json.r dec) = maxU.
Proof.
  intros HmaxU. unfold json.Decode.
  change (json.derr (json.NewDecoder (io.mkLimitedReader gr maxU)))
    with (@None liberr).
  cbv iota. unfold json.readValue.
  destruct (json.readValue_loop _ _ _ _) as [dec1 [n e]] eqn:Hloop.
  apply readValue_loop_inv in Hloop;
    cbn [json.set_scan json.NewDecoder json.scanp json.buf json.bufcap json.r
         io.R_ io.N List.length app] in *; try lia.
  destruct Hloop as (H1 & H2 & H3 & H4 & H5 & H6).
  change (len (@nil byte)) with 0 in H6.
  destruct e as [e|]; cbn [fst json.r json.buf].
  - repeat split; auto; lia.
  - destruct (unmarshal _ x) as [x' ue]. cbn [fst json.r json.buf].
    repeat split; auto; lia.
Qed.

(** X1 (the cap holds).  Whatever the stream and whatever happens,
    [Decompress] takes at most the limit out of the decompressor: what was
    taken and what the reader is left with make up the stream, the bytes
    taken are the limit minus the counter, and the counter never goes
    below zero.  The decoder's buffer is part of what was taken. *)
Theorem Decompress_reads_within_limit
        {C : flate.Codec} {T} {G : GoType T}
        (gr : gzip.Reader) (x : T) (limit : Z) :
  let maxU := effective limit in
  let lr := reader_after gr x maxU in
  let dec := fst (fst (json.Decode
                         (json.NewDecoder (io.mkLimitedReader gr maxU)) x)) in
  0 <= io.N lr <= maxU
  /\ len (json.buf dec) <= maxU
  /\ exists taken,
       gzip.payload gr = taken ++ gzip.payload (io.R_ lr)
       /\ len taken = maxU - io.N lr
       /\ firstn (List.length (json.buf dec)) taken = json.buf dec.
Proof.
  intros maxU lr dec.
  pose proof (effective_pos limit) as Hpos. fold maxU in Hpos.
  destruct (Decode_inv gr maxU x) as (HN & Hdata & Hfin & Hlen); [lia|].
  fold dec in HN, Hdata, Hfin, Hlen.
  pose proof (len_nonneg (json.buf dec)) as Hb.
  unfold lr, reader_after.
  destruct (snd (json.Decode _ x)) as [e|].
  - fold dec. split; [lia|]. split; [lia|].
    exists (json.buf dec). repeat split; auto.
    + lia.
    + apply firstn_all.
  - fold dec. unfold io.Copy_Discard.
    destruct (json.r dec) as [z n] eqn:Hr. cbn [io.R_ io.N] in *.
    destruct (io.discard_ReadFrom _ (io.mkLimitedReader z n) 0)
      as [[cnt e] lr'] eqn:Hc.
    apply discard_inv in Hc; [|lia].
    destruct Hc as (H0 & Hf & drained & Hd & Hl).
    pose proof (len_nonneg drained) as Hdr.
    cbn [snd]. split; [lia|]. split; [lia|].
    exists (json.buf dec ++ drained). repeat split.
    + rewrite <- Hdata, Hd. now rewrite app_assoc.
    + rewrite len_app. lia.
    + rewrite firstn_app, firstn_all, Nat.sub_diag. cbn [firstn].
      apply app_nil_r.
Qed.

(** ** A limit larger than the stream *)

(** With more budget than the stream has bytes the limited reader never
    cuts in: [readValue]'s loop ends as the scan of the whole stream
    does, and the counter stays above zero. *)
Lemma readValue_loop_ample {C : flate.Codec} (D : bytes) (fin : liberr) :
  forall fuel (dec : @json.Decoder (io.LimitedReader gzip.Reader)) sp e,
    json.scanp dec = O ->
    json.buf dec ++ gzip.payload (io.R_ (json.r dec)) = D ->
    gzip.final (io.R_ (json.r dec)) = fin ->
    (sp <= List.length (json.buf dec))%nat ->
    json.scan_buf json.reset (firstn sp D) 0 = json.More sp (json.scan dec) ->
    (List.length (json.buf dec) <= json.bufcap dec)%nat ->
    (forall e0, e = Some e0 ->
                e0 = fin /\ gzip.payload (io.R_ (json.r dec)) = []) ->
    len (gzip.payload (io.R_ (json.r dec))) < io.N (json.r dec) ->
    match e with
    | None => (io.reads_bound (io.R_ (json.r dec)) + 2 <= fuel)%nat
    | Some _ => (1 <= fuel)%nat
    end ->
    exists dec',
      json.readValue_loop fuel dec sp e = (dec', read_outcome D fin)
      /\ json.scanp dec' = O
      /\ json.buf dec' ++ gzip.payload (io.R_ (json.r dec')) = D
      /\ gzip.final (io.R_ (json.r dec')) = fin
      /\ len (gzip.payload (io.R_ (json.r dec'))) < io.N (json.r dec')
      /\ (snd (read_outcome D fin) = None ->
          (fst (read_outcome D fin) <= List.length (json.buf dec'))%nat).
Proof.
  induction fuel as [|fuel IH];
    intros dec sp e Hscanp Hdata Hfin Hsp Hscan Hcap He Hbudget Hfuel.
  { destruct e; lia. }
  (* the scan of the whole stream goes on from the buffer's scan *)
  assert (Hwhole : json.scan_buf json.reset D 0
                   = match json.scan_buf (json.scan dec)
                             (skipn sp (json.buf dec)) sp with
                     | json.More p' s' =>
                         json.scan_buf s' (gzip.payload (io.R_ (json.r dec))) p'
                     | r => r
                     end).
  { rewrite <- scan_buf_app, <- skipn_app_le by exact Hsp. rewrite Hdata.
    rewrite <- (firstn_skipn sp D) at 1.
    rewrite scan_buf_app, Hscan. reflexivity. }
  cbn [json.readValue_loop]. unfold read_outcome. rewrite Hwhole.
  destruct (json.scan_buf (json.scan dec) (skipn sp (json.buf dec)) sp)
    as [n' s' | s' | sp' s'] eqn:Hbuf.
  - (* the value ends in what is buffered *)
    exists (json.set_scan dec s'). rewrite Hscanp, Nat.sub_0_r.
    cbn [json.set_scan json.scanp json.buf json.r fst snd].
    destruct (scan_buf_Value _ _ _ _ _ Hbuf) as [Hn _].
    rewrite length_skipn in Hn.
    repeat split; auto. intros _. lia.
  - (* the scan fails in what is buffered *)
    exists (json.set_err (json.set_scan dec s') (json.err s')).
    cbn [json.set_scan json.set_err json.scanp json.buf json.r fst snd].
    repeat split; auto. intros _. lia.
  - pose proof (scan_buf_More _ _ _ _ _ Hbuf) as Hsp'.
    rewrite length_skipn in Hsp'.
    assert (Hsp'' : sp' = List.length (json.buf dec)) by lia. clear Hsp'.
    subst sp'.
    destruct e as [e0|].
    + (* the stream is used up *)
      destruct (He e0 eq_refl) as [-> Hnil]. rewrite Hnil in *.
      cbn [json.scan_buf]. rewrite app_nil_r in Hdata. subst D.
      destruct (is_EOF fin).
      * destruct (json.do_step s' " "%char) as [s2 op]. cbn [snd].
        destruct (json.is_scanEnd op).
        -- exists (json.set_scan dec s2). rewrite Hscanp, Nat.sub_0_r.
           cbn [json.set_scan json.scanp json.buf json.r fst snd].
           rewrite Hnil, app_nil_r. repeat split; auto.
        -- eexists. split; [reflexivity|].
           cbn [json.set_scan json.set_err json.scanp json.buf json.r fst snd].
           rewrite Hnil, app_nil_r. repeat split; auto. discriminate.
      * eexists. split; [reflexivity|].
        cbn [json.set_scan json.set_err json.scanp json.buf json.r fst snd].
        rewrite Hnil, app_nil_r. repeat split; auto. discriminate.
    + (* read on *)
      clear He.
      pose proof (len_nonneg (gzip.payload (io.R_ (json.r dec)))) as Hp0.
      rewrite Hscanp, Nat.sub_0_r.
      unfold json.refill.
      cbn [json.set_scan json.scanp json.buf json.bufcap json.r json.scan
           json.derr].
      rewrite Hscanp. change (Nat.ltb 0 0) with false. cbv iota.
      set (cap1 := if Nat.ltb (json.bufcap dec - List.length (json.buf dec))
                              json.minRead
                   then (2 * json.bufcap dec + json.minRead)%nat
                   else json.bufcap dec).
      assert (Hcap1 : (List.length (json.buf dec) < cap1)%nat).
      { unfold cap1, json.minRead.
        destruct (Nat.ltb_spec (json.bufcap dec - List.length (json.buf dec))
                               512); lia. }
      destruct (json.r dec) as [z N] eqn:Hr. cbn [io.R_ io.N] in *.
      rewrite LimitedReader_Read_eq.
      destruct (Z.leb_spec N 0) as [Hle | _]; [lia|].
      set (k := capped (cap1 - List.length (json.buf dec)) N).
      destruct (gzip.Read z k) as [[c e'] z1] eqn:HR.
      destruct (gzip_Read_spec _ _ _ _ _ HR) as (Hpay & Hfin' & Hlen & He' & Hprog).
      assert (Hk : (0 < k)%nat) by (apply capped_pos; lia).
      assert (Hkle : (k <= cap1 - List.length (json.buf dec))%nat)
        by apply capped_le_k.
      assert (Hlenp : len (gzip.payload z) = len c + len (gzip.payload z1))
        by (rewrite Hpay; apply len_app).
      cbn [json.scanp Nat.add].
      edestruct (IH (json.mkDecoder (io.mkLimitedReader z1 (N - len c))
                       (json.buf dec ++ c) cap1 0 s' (json.derr dec))
                    (List.length (json.buf dec)) e')
        as (dec' & Hloop & H1 & H2 & H3 & H4 & H5);
        cbn [json.scanp json.buf json.bufcap json.r json.scan json.derr
             io.R_ io.N].
      * reflexivity.
      * rewrite <- app_assoc, <- Hpay. exact Hdata.
      * congruence.
      * rewrite length_app. lia.
      * assert (Hb : firstn sp D ++ skipn sp (json.buf dec) = json.buf dec).
        { rewrite <- Hdata, firstn_app_le by exact Hsp. apply firstn_skipn. }
        rewrite <- Hdata, firstn_app_le, firstn_all by lia.
        rewrite <- Hb at 1.
        rewrite scan_buf_app, Hscan. exact Hbuf.
      * rewrite length_app. lia.
      * intros e0 He0. destruct He' as [-> | [-> Hnil]]; [discriminate|].
        inversion He0; subst. split; [congruence | exact Hnil].
      * lia.
      * destruct He' as [-> | [-> _]]; [| lia].
        specialize (Hprog eq_refl Hk). lia.
      * exists dec'. split.
        -- unfold read_outcome in Hloop. rewrite Hwhole in Hloop.
           exact Hloop.
        -- unfold read_outcome in H5. rewrite Hwhole in H5.
           repeat split; auto.
Qed.

Lemma Decode_ample {C : flate.Codec} {T} `{GoType T}
      (gr : gzip.Reader) (maxU : Z) (x : T) :
  len (gzip.payload gr) < maxU ->
  exists dec,
    json.Decode (json.NewDecoder (io.mkLimitedReader gr maxU)) x
    = match read_outcome (gzip.payload gr) (gzip.final gr) with
      | (n, None) =>
          ((dec, fst (unmarshal (firstn n (gzip.payload gr)) x)),
           snd (unmarshal (firstn n (gzip.payload gr)) x))
      | (_, Some e) => ((dec, x), Some e)
      end
    /\ gzip.final (io.R_ (json.r dec)) = gzip.final gr
    /\ len (gzip.payload (io.R_ (json.r dec))) < io.N (json.r dec).
Proof.
  intros Hbudget.
  destruct (readValue_loop_ample (gzip.payload gr) (gzip.final gr)
              (2 + io.reads_bound gr)
              (json.NewDecoder (io.mkLimitedReader gr maxU)) 0 None)
    as (dec1 & Hloop & H1 & H2 & H3 & H4 & H5);
    cbn [json.NewDecoder json.scanp json.buf json.bufcap json.r json.scan
         json.derr io.R_ io.N app List.length firstn json.scan_buf];
    try reflexivity; try lia; try (intros; discriminate).
  assert (HRV : json.readValue (json.NewDecoder (io.mkLimitedReader gr maxU))
                = (dec1, read_outcome (gzip.payload gr) (gzip.final gr)))
    by exact Hloop.
  unfold json.Decode.
  change (json.derr (json.NewDecoder (io.mkLimitedReader gr maxU)))
    with (@None liberr).
  cbv iota. rewrite HRV.
  destruct (read_outcome (gzip.payload gr) (gzip.final gr)) as [n [e|]].
  - exists dec1. repeat split; auto.
  - rewrite H1. cbn [skipn]. cbn [fst snd] in H5. specialize (H5 eq_refl).
    replace (firstn n (json.buf dec1)) with (firstn n (gzip.payload gr))
      by (rewrite <- H2; apply firstn_app_le; exact H5).
    destruct (unmarshal (firstn n (gzip.payload gr)) x) as [x' e'].
    eexists. split; [reflexivity|]. cbn [json.r]. split; assumption.
Qed.

(** [Decompress], once the reader is open, with a limit larger than the
    stream: the size limit plays no part, and the result is read off the
    scan of the stream, [Unmarshal] and the way the stream ends. *)
Lemma Decompress_body_ample {C : flate.Codec} {T} `{GoType T}
      (gr : gzip.Reader) (maxU : Z) (x : T) :
  len (gzip.payload gr) < maxU ->
  Decompress_body gr x maxU
  = match read_outcome (gzip.payload gr) (gzip.final gr) with
    | (_, Some e) =>
        (Some x, Some (errors.Wrapf e errors.InternalServerError
                         "failed to decode JSON"))
    | (n, None) =>
        match unmarshal (firstn n (gzip.payload gr)) x with
        | (x', Some e) =>
            (Some x', Some (errors.Wrapf e errors.InternalServerError
                              "failed to decode JSON"))
        | (x', None) =>
            match err_of (gzip.final gr) with
            | Some e =>
                (Some x', Some (errors.Wrapf e errors.InternalServerError
                                  "failed to verify complete gzip stream"))
            | None => (Some x', None)
            end
        end
    end.
Proof.
  intros Hbudget.
  destruct (Decode_ample gr maxU x Hbudget) as (dec & HD & Hfin & HN).
  unfold Decompress_body. rewrite HD.
  pose proof (len_nonneg (gzip.payload (io.R_ (json.r dec)))) as Hp.
  destruct (read_outcome (gzip.payload gr) (gzip.final gr)) as [n [e|]].
  - destruct (Z.leb_spec (io.N (json.r dec)) 0); [lia | reflexivity].
  - destruct (unmarshal (firstn n (gzip.payload gr)) x) as [x' [ue|]];
      cbn [fst snd].
    + destruct (Z.leb_spec (io.N (json.r dec)) 0); [lia | reflexivity].
    + unfold io.Copy_Discard.
      destruct (json.r dec) as [z N] eqn:Hr. cbn [io.R_ io.N] in *.
      destruct (discard_within (S (io.reads_bound (io.mkLimitedReader z N)))
                  z N 0) as (cnt & z' & Hc).
      * cbn [io.reads_bound io.LimitedReader_Reader io.R_]. lia.
      * exact HN.
      * rewrite Hc, Hfin.
        destruct (err_of (gzip.final gr)); [|reflexivity].
        cbn [io.N].
        destruct (Z.leb_spec (N - len (gzip.payload z)) 0); [lia | reflexivity].
Qed.

Lemma NewReader_nonempty {C : flate.Codec} (blob : bytes) gr :
  gzip.NewReader blob = inr gr -> blob <> [].
Proof. intros H ->. discriminate H. Qed.

Lemma Decompress_opened {C : flate.Codec} {T} `{GoType T}
      (blob : bytes) (gr : gzip.Reader) (x : T) (limit : Z) :
  gzip.NewReader blob = inr gr ->
  Decompress blob (Some x) limit = Decompress_body gr x (effective limit).
Proof.
  intros Hgr. rewrite Decompress_unfold by exact (NewReader_nonempty _ _ Hgr).
  rewrite Hgr. reflexivity.
Qed.

(** X2 (no size-limit error below the limit).  When the blob opens and
    decompresses to fewer bytes than the limit, an error of [Decompress]
    is never the size-limit error: it is an [InternalServerError], "failed
    to decode JSON" or "failed to verify complete gzip stream". *)
Theorem no_size_limit_error_below_limit
        {C : flate.Codec} {T} {G : GoType T}
        (blob : bytes) (gr : gzip.Reader) (x : T) (limit : Z)
        (e : errors.Error) :
  gzip.NewReader blob = inr gr ->
  len (gzip.payload gr) < effective limit ->
  snd (Decompress blob (Some x) limit) = Some e ->
  errors.code e = errors.InternalServerError
  /\ (errors.message e = "failed to decode JSON"%string
      \/ errors.message e = "failed to verify complete gzip stream"%string).
Proof.
  intros Hgr Hbudget.
  rewrite (Decompress_opened _ _ _ _ Hgr), Decompress_body_ample by exact Hbudget.
  destruct (read_outcome _ _) as [n [e0|]].
  - cbn [snd]. intros H; inversion H; subst. cbn. auto.
  - destruct (unmarshal _ x) as [x' [ue|]].
    + cbn [snd]. intros H; inversion H; subst. cbn. auto.
    + destruct (err_of (gzip.final gr)); cbn [snd]; intros H; inversion H; subst.
      cbn. auto.
Qed.

Lemma no_size_limit_error_below_limit_witness :
  errors.code (errors.Wrapf (SyntaxError "}"%char "looking for beginning of value")
                 errors.InternalServerError "failed to decode JSON")
  = errors.InternalServerError
  /\ (errors.message
        (errors.Wrapf (SyntaxError "}"%char "looking for beginning of value")
           errors.InternalServerError "failed to decode JSON")
      = "failed to decode JSON"%string
      \/ errors.message
           (errors.Wrapf (SyntaxError "}"%char "looking for beginning of value")
              errors.InternalServerError "failed to decode JSON")
         = "failed to verify complete gzip stream"%string).
Proof.
  apply (no_size_limit_error_below_limit (C := stored.codec)
           (gzipCompressRaw examples.malformed)
           (stream examples.malformed EOF) false 2).
  - reflexivity.
  - reflexivity.
  - reflexivity.
Defined.

(** X3 (a stream that does not verify is never accepted).  When the blob
    opens, its stream does not end with a verified footer (a bad checksum
    or length, a short footer, garbage after the member, a broken DEFLATE
    stream) and the limit is larger than what it decompresses to,
    [Decompress] returns an error. *)
Theorem unverified_stream_never_succeeds
        {C : flate.Codec} {T} {G : GoType T}
        (blob : bytes) (gr : gzip.Reader) (x : T) (limit : Z) :
  gzip.NewReader blob = inr gr ->
  gzip.final gr <> EOF ->
  len (gzip.payload gr) < effective limit ->
  snd (Decompress blob (Some x) limit) <> None.
Proof.
  intros Hgr Hfin Hbudget.
  rewrite (Decompress_opened _ _ _ _ Hgr), Decompress_body_ample by exact Hbudget.
  destruct (read_outcome _ _) as [n [e0|]]; [discriminate|].
  destruct (unmarshal _ x) as [x' [ue|]]; [discriminate|].
  unfold err_of. destruct (gzip.final gr); try discriminate.
  contradiction.
Qed.

Lemma unverified_stream_never_succeeds_witness :
  snd (Decompress (C := stored.codec) examples.corrupted (Some false) 1024)
  <> None.
Proof.
  apply (unverified_stream_never_succeeds (C := stored.codec)
           examples.corrupted (stream examples.long_padded ErrChecksum)
           false 1024).
  - vm_compute. reflexivity.
  - discriminate.
  - vm_compute. reflexivity.
Defined.

(** X4 (malformed payload).  When the raw bytes [d] hold no complete JSON
    value (the scan fails, or [d] ends inside a value or is empty) and
    the limit is larger than [d], [Decompress] of the gzip of [d] returns
    the [InternalServerError] "failed to decode JSON" wrapping the
    decoder's error, and leaves the destination as it was. *)
Theorem malformed_payload_rejected
        {C : flate.Codec} {L : flate.Lawful C} {T} {G : GoType T}
        (d : bytes) (x : T) (limit : Z) (n : nat) (e : liberr) :
  read_outcome d EOF = (n, Some e) ->
  len d < effective limit ->
  Decompress (gzipCompressRaw d) (Some x) limit
  = (Some x, Some (errors.Wrapf e errors.InternalServerError
                     "failed to decode JSON")).
Proof.
  intros Hout Hbudget.
  rewrite (Decompress_opened _ _ _ _ (NewReader_gzipCompressRaw d)).
  rewrite Decompress_body_ample by (rewrite payload_stream; exact Hbudget).
  rewrite payload_stream, final_stream, Hout. reflexivity.
Qed.

Lemma malformed_payload_rejected_witness :
  Decompress (C := stored.codec) (gzipCompressRaw (B "{")) (Some false) 1024
  = (Some false, Some (errors.Wrapf ErrUnexpectedEOF errors.InternalServerError
                         "failed to decode JSON")).
Proof.
  apply (malformed_payload_rejected (C := stored.codec)
           (B "{") false 1024 0 ErrUnexpectedEOF).
  - reflexivity.
  - reflexivity.
Defined.

(** X5 (what follows the value is ignored).  For every encodable value and
    every bytes [rest] put after its text and newline, [Decompress] of the
    gzip, with any limit that covers the text and the newline, succeeds
    and stores the value: only the first value of the stream is decoded,
    the rest is drained and dropped. *)
Theorem trailing_data_ignored
        {C : flate.Codec} {L : flate.Lawful C} {T} {G : GoType T}
        (v out : T) (text rest : bytes) (limit : Z) :
  Encodable v text ->
  len text + 1 <= effective limit ->
  Decompress (gzipCompressRaw (text ++ newline :: rest)) (Some out) limit
  = (Some v, None).
Proof.
  intros (Hm & Hs & Hu) Hlimit.
  destruct (Hs rest) as [sv Hscan].
  apply (Decompress_raw_ok _ _ _ _ (List.length text) sv).
  - exact Hscan.
  - unfold len in Hlimit. lia.
  - rewrite firstn_app, firstn_all, Nat.sub_diag. cbn [firstn].
    rewrite app_nil_r. apply Hu.
Qed.

Lemma trailing_data_ignored_witness :
  Decompress (C := stored.codec)
             (gzipCompressRaw (B "true" ++ newline :: B "}}garbage"))
             (Some false) 5
  = (Some true, None).
Proof.
  apply (trailing_data_ignored (C := stored.codec) true false (B "true")
           (B "}}garbage") 5).
  - exact (Encodable_bool true).
  - vm_compute. discriminate.
Defined.

(** ** A damaged footer *)

Lemma byte_of_val (c : byte) : byte_of (byte_val c) = c.
Proof.
  unfold byte_of. pose proof (byte_val_range c) as Hc.
  rewrite Z.mod_small by lia. unfold byte_val.
  rewrite N2Z.id. apply ascii_N_embedding.
Qed.

Lemma PutUint32_Uint32 (b : bytes) :
  List.length b = 4%nat -> binary.PutUint32 (binary.Uint32 b) = b.
Proof.
  destruct b as [|b0 [|b1 [|b2 [|b3 [|b4 b]]]]]; try discriminate. intros _.
  unfold binary.Uint32, binary.PutUint32.
  pose proof (byte_val_range b0) as R0. pose proof (byte_val_range b1) as R1.
  pose proof (byte_val_range b2) as R2. pose proof (byte_val_range b3) as R3.
  set (v0 := byte_val b0) in *. set (v1 := byte_val b1) in *.
  set (v2 := byte_val b2) in *. set (v3 := byte_val b3) in *.
  set (x := v0 + 256 * v1 + 65536 * v2 + 16777216 * v3).
  assert (H0 : x mod 256 = v0)
    by (symmetry; apply (Z.mod_unique_pos x 256 (v1 + 256 * v2 + 65536 * v3));
        unfold x; lia).
  assert (H1 : (x / 256) mod 256 = v1).
  { replace (x / 256) with (v1 + 256 * v2 + 65536 * v3)
      by (apply (Z.div_unique_pos x 256 _ v0); unfold x; lia).
    symmetry. apply (Z.mod_unique_pos _ 256 (v2 + 256 * v3)); lia. }
  assert (H2 : (x / 65536) mod 256 = v2).
  { replace (x / 65536) with (v2 + 256 * v3)
      by (apply (Z.div_unique_pos x 65536 _ (v0 + 256 * v1)); unfold x; lia).
    symmetry. apply (Z.mod_unique_pos _ 256 v3); lia. }
  assert (H3 : (x / 16777216) mod 256 = v3).
  { replace (x / 16777216) with v3
      by (apply (Z.div_unique_pos x 16777216 _ (v0 + 256 * v1 + 65536 * v2));
          unfold x; lia).
    apply Z.mod_small. lia. }
  unfold byte_of. rewrite H0, H1, H2, H3.
  fold (byte_of v0) (byte_of v1) (byte_of v2) (byte_of v3).
  unfold v0, v1, v2, v3.
  assert (Hb : forall c, ascii_of_N (Z.to_N (byte_val c)) = c).
  { intros c. pose proof (byte_of_val c) as Hc. unfold byte_of in Hc.
    rewrite Z.mod_small in Hc by apply byte_val_range. exact Hc. }
  rewrite !Hb. reflexivity.
Qed.

Lemma footer_checks (d ft : bytes) :
  List.length ft = 8%nat ->
  negb ((binary.Uint32 ft =? crc32.ChecksumIEEE d)
        && (binary.Uint32 (skipn 4 ft) =? len d mod 2 ^ 32)) = false ->
  ft = gzip.footer d.
Proof.
  intros Hlen Hchk. apply negb_false_iff, andb_true_iff in Hchk.
  destruct Hchk as [Hcrc Hsz]. apply Z.eqb_eq in Hcrc, Hsz.
  destruct ft as [|b0 [|b1 [|b2 [|b3 [|b4 [|b5 [|b6 [|b7 [|b8 ft]]]]]]]]];
    try discriminate. clear Hlen.
  cbn [skipn] in Hsz.
  change (binary.Uint32 [b0; b1; b2; b3; b4; b5; b6; b7])
    with (binary.Uint32 [b0; b1; b2; b3]) in Hcrc.
  assert (HA : [b0; b1; b2; b3] = binary.PutUint32 (crc32.ChecksumIEEE d)).
  { rewrite <- Hcrc. symmetry. apply PutUint32_Uint32. reflexivity. }
  assert (Hmod : binary.PutUint32 (len d mod 2 ^ 32) = binary.PutUint32 (len d)).
  { rewrite <- (Uint32_PutUint32 (len d) []), app_nil_r.
    apply PutUint32_Uint32. reflexivity. }
  assert (HB : [b4; b5; b6; b7] = binary.PutUint32 (len d)).
  { rewrite <- Hmod, <- Hsz. symmetry. apply PutUint32_Uint32. reflexivity. }
  unfold gzip.footer. rewrite <- HA, <- HB. reflexivity.
Qed.

(** The reader over a blob of the writer whose footer was replaced. *)
Lemma NewReader_damaged_footer
      {C : flate.Codec} {L : flate.Lawful C} (d ft : bytes) :
  (List.length ft <= 8)%nat ->
  ft <> gzip.footer d ->
  gzip.NewReader (gzip.header ++ flate.deflate d ++ ft)
  = inr (stream d (if Nat.ltb (List.length ft) 8 then ErrUnexpectedEOF
                   else ErrChecksum)).
Proof.
  intros Hlen Hne. unfold gzip.NewReader.
  rewrite readHeader_header.
  cbn [gzip.header app List.length gzip.members].
  rewrite flate.inflate_deflate.
  rewrite skipn_app, skipn_all, Nat.sub_diag. cbn [app skipn].
  unfold gzip.ReadFull.
  destruct (Nat.ltb_spec (List.length ft) 8) as [Hlt | Hge].
  - replace (Nat.leb 8 (List.length ft)) with false
      by (symmetry; apply Nat.leb_gt; exact Hlt).
    destruct ft; reflexivity.
  - replace (Nat.leb 8 (List.length ft)) with true
      by (symmetry; apply Nat.leb_le; exact Hge).
    assert (H8 : List.length ft = 8%nat) by lia.
    rewrite firstn_all2, skipn_all2 by lia.
    destruct (negb _) eqn:Hchk; [reflexivity|].
    apply footer_checks in Hchk; [contradiction | exact H8].
Qed.

(** X6 (a damaged footer is detected).  Take the blob [Compress] returns
    for an encodable value and put any other bytes [ft], at most eight,
    in place of its eight footer bytes.  With a limit larger than the
    decompressed text, [Decompress] stores the value and returns the
    [InternalServerError] "failed to verify complete gzip stream": it
    wraps [gzip.ErrChecksum] when [ft] has eight bytes, and
    [io.ErrUnexpectedEOF] when it is shorter. *)
Theorem damaged_footer_detected
        {C : flate.Codec} {L : flate.Lawful C} {T} {G : GoType T}
        (v out : T) (text ft : bytes) (limit : Z) :
  Encodable v text ->
  (List.length ft <= 8)%nat ->
  ft <> gzip.footer (text ++ [newline]) ->
  len text + 1 < effective limit ->
  Compress (iface v)
  = (Some (gzip.header ++ flate.deflate (text ++ [newline])
           ++ gzip.footer (text ++ [newline])), None)
  /\ Decompress (gzip.header ++ flate.deflate (text ++ [newline]) ++ ft)
                (Some out) limit
     = (Some v,
        Some (errors.Wrapf
                (if Nat.ltb (List.length ft) 8 then ErrUnexpectedEOF
                 else ErrChecksum)
                errors.InternalServerError
                "failed to verify complete gzip stream")).
Proof.
  intros (Hm & Hs & Hu) Hlen Hne Hlimit. split.
  { rewrite Compress_iface, Hm. reflexivity. }
  rewrite (Decompress_opened _ _ _ _ (NewReader_damaged_footer _ _ Hlen Hne)).
  destruct (Hs []) as [sv Hscan].
  apply (Decompress_body_unverified _ _ _ _ (List.length text) sv);
    rewrite ?payload_stream, ?final_stream; auto.
  - rewrite len_app. change (len [newline]) with 1. exact Hlimit.
  - destruct (Nat.ltb (List.length ft) 8); reflexivity.
  - rewrite firstn_app, firstn_all, Nat.sub_diag. cbn [firstn].
    rewrite app_nil_r. apply Hu.
Qed.

Lemma damaged_footer_detected_witness :
  Compress (C := stored.codec) (iface true)
  = (Some (gzip.header ++ flate.deflate (B "true" ++ [newline])
           ++ gzip.footer (B "true" ++ [newline])), None)
  /\ Decompress (C := stored.codec)
                (gzip.header ++ flate.deflate (B "true" ++ [newline])
                 ++ repeat Ascii.zero 8)
                (Some false) 1024
     = (Some true,
        Some (errors.Wrapf ErrChecksum errors.InternalServerError
                "failed to verify complete gzip stream")).
Proof.
  apply (damaged_footer_detected (C := stored.codec) true false (B "true")
           (repeat Ascii.zero 8) 1024).
  - exact (Encodable_bool true).
  - cbn. lia.
  - intros H. vm_compute in H. discriminate H.
  - vm_compute. reflexivity.
Defined.

(** ** A limit shorter than the stream *)

(** When the stream is longer than the budget and its first [b] bytes,
    [b] being the budget, hold neither the end of a value nor a syntax
    error, [readValue]'s loop reads exactly those bytes and then meets the
    limited reader's [io.EOF]; what it makes of them is what the scanner
    makes of them followed by a space. *)
Lemma readValue_loop_short {C : flate.Codec} (D : bytes) (b : nat)
      (sb : json.scanner) :
  (b < List.length D)%nat ->
  json.scan_buf json.reset (firstn b D) 0 = json.More b sb ->
  forall fuel (dec : @json.Decoder (io.LimitedReader gzip.Reader)) sp e,
    json.scanp dec = O ->
    json.buf dec ++ gzip.payload (io.R_ (json.r dec)) = D ->
    len (json.buf dec) + io.N (json.r dec) = Z.of_nat b ->
    0 <= io.N (json.r dec) ->
    (sp <= List.length (json.buf dec))%nat ->
    json.scan_buf json.reset (firstn sp D) 0 = json.More sp (json.scan dec) ->
    (List.length (json.buf dec) <= json.bufcap dec)%nat ->
    (forall e0, e = Some e0 -> e0 = EOF /\ io.N (json.r dec) = 0) ->
    match e with
    | None => (io.reads_bound (io.R_ (json.r dec)) + 2 <= fuel)%nat
    | Some _ => (1 <= fuel)%nat
    end ->
    exists dec',
      json.readValue_loop fuel dec sp e
      = (dec',
         if json.is_scanEnd (snd (json.do_step sb " "%char))
         then (b, None)
         else (O, Some (if json.nonSpace (firstn b D) then ErrUnexpectedEOF
                        else EOF)))
      /\ json.scanp dec' = O
      /\ json.buf dec' = firstn b D
      /\ io.N (json.r dec') = 0.
Proof.
  intros HbD Hsb.
  induction fuel as [|fuel IH];
    intros dec sp e Hscanp Hdata Hbud HN Hsp Hscan Hcap He Hfuel.
  { destruct e; lia. }
  assert (Hblen : (List.length (json.buf dec) <= b)%nat) by (unfold len in Hbud; lia).
  (* the buffer is a prefix of the first [b] bytes *)
  assert (Hpre : firstn b D
                 = json.buf dec
                   ++ firstn (b - List.length (json.buf dec))
                        (gzip.payload (io.R_ (json.r dec)))).
  { rewrite <- Hdata, firstn_app, firstn_all2 by lia. reflexivity. }
  assert (Hbufscan :
            exists s', json.scan_buf (json.scan dec)
                         (skipn sp (json.buf dec)) sp
                       = json.More (List.length (json.buf dec)) s'
                       /\ json.scan_buf s'
                            (firstn (b - List.length (json.buf dec))
                               (gzip.payload (io.R_ (json.r dec))))
                            (List.length (json.buf dec))
                          = json.More b sb).
  { pose proof Hsb as H. rewrite Hpre in H.
    rewrite <- (firstn_skipn sp (json.buf dec)) in H at 1.
    rewrite <- app_assoc, scan_buf_app in H.
    replace (firstn sp (json.buf dec)) with (firstn sp D) in H
      by (rewrite <- Hdata; apply firstn_app_le; exact Hsp).
    rewrite Hscan, scan_buf_app in H.
    destruct (json.scan_buf (json.scan dec) (skipn sp (json.buf dec)) sp)
      as [n' s' | s' | sp' s'] eqn:Hbuf; try discriminate.
    pose proof (scan_buf_More _ _ _ _ _ Hbuf) as Hsp'.
    rewrite length_skipn in Hsp'.
    replace sp' with (List.length (json.buf dec)) in * by lia.
    exists s'. split; [reflexivity | exact H]. }
  destruct Hbufscan as (s' & Hbuf & Hrest).
  cbn [json.readValue_loop]. rewrite Hbuf.
  destruct e as [e0|].
  - destruct (He e0 eq_refl) as [-> HN0].
    assert (Hfull : List.length (json.buf dec) = b) by (unfold len in Hbud; lia).
    rewrite Hfull, Nat.sub_diag in Hrest, Hpre. cbn [firstn json.scan_buf] in Hrest.
    rewrite app_nil_r in Hpre.
    inversion Hrest; subst s'.
    cbn [is_EOF]. destruct (json.do_step sb " "%char) as [s2 op]. cbn [snd].
    rewrite Hscanp, Nat.sub_0_r, Hfull.
    destruct (json.is_scanEnd op).
    + eexists. split; [reflexivity|].
      cbn [json.set_scan json.scanp json.buf json.r]. auto.
    + rewrite <- Hpre. eexists. split; [reflexivity|].
      cbn [json.set_scan json.set_err json.scanp json.buf json.r]. auto.
  - clear He. rewrite Hscanp, Nat.sub_0_r.
    unfold json.refill.
    cbn [json.set_scan json.scanp json.buf json.bufcap json.r json.scan
         json.derr].
    rewrite Hscanp. change (Nat.ltb 0 0) with false. cbv iota.
    set (cap1 := if Nat.ltb (json.bufcap dec - List.length (json.buf dec))
                            json.minRead
                 then (2 * json.bufcap dec + json.minRead)%nat
                 else json.bufcap dec).
    assert (Hcap1 : (List.length (json.buf dec) < cap1)%nat).
    { unfold cap1, json.minRead.
      destruct (Nat.ltb_spec (json.bufcap dec - List.length (json.buf dec))
                             512); lia. }
    assert (Hscan' : json.scan_buf json.reset
                       (firstn (List.length (json.buf dec)) D) 0
                     = json.More (List.length (json.buf dec)) s').
    { rewrite <- Hdata, firstn_app_le, firstn_all by lia.
      rewrite <- (firstn_skipn sp (json.buf dec)) at 1.
      rewrite scan_buf_app.
      replace (firstn sp (json.buf dec)) with (firstn sp D)
        by (rewrite <- Hdata; apply firstn_app_le; exact Hsp).
      rewrite Hscan. exact Hbuf. }
    destruct (json.r dec) as [z N] eqn:Hr. cbn [io.R_ io.N] in *.
    rewrite LimitedReader_Read_eq.
    destruct (Z.leb_spec N 0) as [Hle | Hgt].
    + (* the budget is used up: the limited reader says [io.EOF] *)
      cbn [json.scanp Nat.add]. rewrite app_nil_r.
      edestruct (IH (json.mkDecoder (io.mkLimitedReader z N)
                       (json.buf dec) cap1 0 s' (json.derr dec))
                    (List.length (json.buf dec)) (Some EOF))
        as (dec' & Hloop & H1 & H2 & H3);
        cbn [json.scanp json.buf json.bufcap json.r json.scan json.derr
             io.R_ io.N]; auto; try lia.
      * intros e0 He0. inversion He0; subst. split; [reflexivity | lia].
      * exists dec'. split; [exact Hloop | auto].
    + set (k := capped (cap1 - List.length (json.buf dec)) N).
      destruct (gzip.Read z k) as [[c e'] z1] eqn:HR.
      destruct (gzip_Read_spec _ _ _ _ _ HR) as (Hpay & Hfin' & Hlen & He' & Hprog).
      assert (Hk : (0 < k)%nat) by (apply capped_pos; lia).
      pose proof (capped_le (cap1 - List.length (json.buf dec)) N Hgt) as HkN.
      pose proof (capped_le_k (cap1 - List.length (json.buf dec)) N) as Hkle.
      fold k in HkN, Hkle.
      assert (Hc : len c <= N) by (unfold len; lia).
      assert (HlenD : len D = len (json.buf dec) + len c + len (gzip.payload z1)).
      { rewrite <- Hdata, Hpay, !len_app. lia. }
      assert (He'' : e' = None).
      { destruct He' as [-> | [_ Hnil]]; [reflexivity|].
        rewrite Hnil in HlenD. change (len (@nil byte)) with 0 in HlenD.
        unfold len in *. lia. }
      subst e'. specialize (Hprog eq_refl Hk).
      cbn [json.scanp Nat.add].
      edestruct (IH (json.mkDecoder (io.mkLimitedReader z1 (N - len c))
                       (json.buf dec ++ c) cap1 0 s' (json.derr dec))
                    (List.length (json.buf dec)) None)
        as (dec' & Hloop & H1 & H2 & H3);
        cbn [json.scanp json.buf json.bufcap json.r json.scan json.derr
             io.R_ io.N]; auto; try lia.
      * rewrite <- app_assoc, <- Hpay. exact Hdata.
      * rewrite len_app. lia.
      * rewrite length_app. lia.
      * rewrite length_app. lia.
      * intros e0 He0. discriminate He0.
      * exists dec'. split; [exact Hloop | auto].
Qed.

Lemma Decode_short {C : flate.Codec} {T} `{GoType T}
      (gr : gzip.Reader) (maxU : Z) (x : T) (sb : json.scanner) :
  0 < maxU < len (gzip.payload gr) ->
  json.scan_buf json.reset (firstn (Z.to_nat maxU) (gzip.payload gr)) 0
  = json.More (Z.to_nat maxU) sb ->
  exists dec,
    json.Decode (json.NewDecoder (io.mkLimitedReader gr maxU)) x
    = (if json.is_scanEnd (snd (json.do_step sb " "%char))
       then ((dec, fst (unmarshal (firstn (Z.to_nat maxU) (gzip.payload gr)) x)),
             snd (unmarshal (firstn (Z.to_nat maxU) (gzip.payload gr)) x))
       else ((dec, x),
             Some (if json.nonSpace (firstn (Z.to_nat maxU) (gzip.payload gr))
                   then ErrUnexpectedEOF else EOF)))
    /\ io.N (json.r dec) = 0.
Proof.
  intros Hlim Hscan.
  destruct (readValue_loop_short (gzip.payload gr) (Z.to_nat maxU) sb)
    with (fuel := (2 + io.reads_bound gr)%nat)
         (dec := json.NewDecoder (io.mkLimitedReader gr maxU))
         (sp := O) (e := @None liberr)
    as (dec1 & Hloop & H1 & H2 & H3);
    cbn [json.NewDecoder json.scanp json.buf json.bufcap json.r json.scan
         json.derr io.R_ io.N app List.length firstn json.scan_buf];
    try reflexivity; try (unfold len in *; lia); try (intros; discriminate);
    try exact Hscan.
  { change (len (@nil byte)) with 0. lia. }
  assert (HRV : json.readValue (json.NewDecoder (io.mkLimitedReader gr maxU))
                = (dec1,
                   if json.is_scanEnd (snd (json.do_step sb " "%char))
                   then (Z.to_nat maxU, None)
                   else (O, Some (if json.nonSpace
                                       (firstn (Z.to_nat maxU) (gzip.payload gr))
                                  then ErrUnexpectedEOF else EOF))))
    by exact Hloop.
  unfold json.Decode.
  change (json.derr (json.NewDecoder (io.mkLimitedReader gr maxU)))
    with (@None liberr).
  cbv iota. rewrite HRV.
  destruct (json.is_scanEnd (snd (json.do_step sb " "%char))).
  - rewrite H1, H2. cbn [skipn].
    rewrite firstn_firstn, Nat.min_id.
    destruct (unmarshal (firstn (Z.to_nat maxU) (gzip.payload gr)) x) as [x' e'].
    eexists. split; [reflexivity | exact H3].
  - exists dec1. split; [reflexivity | exact H3].
Qed.



(** X8 (a scalar cut by the limit).  When the blob opens, decompresses to
    more bytes than the limit, and the bytes up to the limit are the
    beginning of a value that a space would end there (digits of a longer
    number, say), [Decompress] does not report the limit: it unmarshals
    those bytes, and if that succeeds it returns success with what they
    stand for.  The footer is not looked at. *)
Theorem scalar_cut_by_limit_accepted
        {C : flate.Codec} {T} {G : GoType T}
        (blob : bytes) (gr : gzip.Reader) (x v : T) (limit : Z)
        (sb : json.scanner) :
  gzip.NewReader blob = inr gr ->
  effective limit < len (gzip.payload gr) ->
  json.scan_buf json.reset
    (firstn (Z.to_nat (effective limit)) (gzip.payload gr)) 0
  = json.More (Z.to_nat (effective limit)) sb ->
  json.is_scanEnd (snd (json.do_step sb " "%char)) = true ->
  unmarshal (firstn (Z.to_nat (effective limit)) (gzip.payload gr)) x
  = (v, None) ->
  Decompress blob (Some x) limit = (Some v, None).
Proof.
  intros Hgr Hlong Hscan Hend Hun.
  pose proof (effective_pos limit) as Hpos.
  rewrite (Decompress_opened _ _ _ _ Hgr).
  destruct (Decode_short gr (effective limit) x sb) as (dec & HD & HN);
    [lia | exact Hscan |].
  unfold Decompress_body. rewrite HD, Hend, Hun. cbn [fst snd].
  unfold io.Copy_Discard.
  destruct (json.r dec) as [z n]. cbn [io.N] in HN. subst n.
  cbn [io.discard_ReadFrom]. rewrite LimitedReader_Read_eq.
  reflexivity.
Qed.

Lemma scalar_cut_by_limit_accepted_witness :
  Decompress (C := stored.codec)
    (gzipCompressRaw (B "123456" ++ [newline])) (Some 0) 3
  = (Some 123, None).
Proof.
  apply (scalar_cut_by_limit_accepted (C := stored.codec)
           (gzipCompressRaw (B "123456" ++ [newline]))
           (stream (B "123456" ++ [newline]) EOF)
           0 123 3
           (json.mkScanner json.state1 false [] None)).
  - vm_compute. reflexivity.
  - vm_compute. reflexivity.
  - vm_compute. reflexivity.
  - vm_compute. reflexivity.
  - vm_compute. reflexivity.
Defined.

(** ** Blobs that do not open *)

Lemma readHeader_short {C : flate.Codec} (b : bytes) :
  b <> [] -> (List.length b < 10)%nat ->
  gzip.readHeader b = inl ErrUnexpectedEOF.
Proof.
  intros Hne Hlen. unfold gzip.readHeader, gzip.ReadFull.
  replace (Nat.leb 10 (List.length b)) with false
    by (symmetry; apply Nat.leb_gt; exact Hlen).
  destruct b; [contradiction | reflexivity].
Qed.

Lemma readHeader_bad_magic {C : flate.Codec} (b : bytes) :
  (10 <= List.length b)%nat ->
  firstn 3 b <> [gzip.gzipID1; gzip.gzipID2; gzip.gzipDeflate] ->
  gzip.readHeader b = inl ErrHeader.
Proof.
  intros Hlen Hmagic. unfold gzip.readHeader, gzip.ReadFull.
  replace (Nat.leb 10 (List.length b)) with true
    by (symmetry; apply Nat.leb_le; exact Hlen).
  destruct b as [|b0 [|b1 [|b2 b]]]; try (cbn in Hlen; lia).
  destruct b as [|b3 [|b4 [|b5 [|b6 [|b7 [|b8 [|b9 b]]]]]]];
    try (cbn in Hlen; lia).
  cbn [firstn nth].
  destruct (Ascii.eqb_spec b0 gzip.gzipID1) as [-> |]; [|reflexivity].
  destruct (Ascii.eqb_spec b1 gzip.gzipID2) as [-> |]; [|reflexivity].
  destruct (Ascii.eqb_spec b2 gzip.gzipDeflate) as [-> |]; [|reflexivity].
  contradiction Hmagic. reflexivity.
Qed.

(** X9 (a blob that is no gzip).  A non-empty blob that is shorter than a
    gzip header, or does not begin with the bytes [1f 8b 08], is refused
    before anything is decoded: [Decompress] returns the
    [InternalServerError] "failed to create gzip reader", wrapping
    [io.ErrUnexpectedEOF] for the short blob and [gzip.ErrHeader]
    otherwise, whatever the limit, and leaves the destination as it was. *)
Theorem invalid_header_rejected
        {C : flate.Codec} {T} {G : GoType T}
        (blob : bytes) (x : T) (limit : Z) :
  blob <> [] ->
  (List.length blob < 10)%nat
  \/ firstn 3 blob <> [byte_of 0x1f; byte_of 0x8b; byte_of 8] ->
  Decompress blob (Some x) limit
  = (Some x,
     Some (errors.Wrapf
             (if Nat.ltb (List.length blob) 10 then ErrUnexpectedEOF
              else ErrHeader)
             errors.InternalServerError "failed to create gzip reader")).
Proof.
  intros Hne Hbad.
  rewrite Decompress_unfold by exact Hne. unfold gzip.NewReader.
  destruct (Nat.ltb_spec (List.length blob) 10) as [Hlt | Hge].
  - rewrite readHeader_short by assumption. reflexivity.
  - destruct Hbad as [Hlt | Hmagic]; [lia|].
    rewrite readHeader_bad_magic by assumption. reflexivity.
Qed.

Lemma invalid_header_rejected_witness :
  Decompress (C := stored.codec) (B "not gzipped") (Some false) 0
  = (Some false,
     Some (errors.Wrapf ErrHeader errors.InternalServerError
             "failed to create gzip reader")).
Proof.
  apply (invalid_header_rejected (C := stored.codec) (B "not gzipped") false 0).
  - discriminate.
  - right. discriminate.
Defined.

(** ** What [Compress] returns *)

(** X10 (bytes or an error, never both).  [Compress] returns either bytes
    and no error, or an error and no bytes.  The bytes are the ten header
    bytes, a DEFLATE stream and the eight footer bytes, so at least
    eighteen.  The error is never "failed to finalize compression": the
    buffer the writer writes to does not fail. *)
Theorem Compress_bytes_or_error {C : flate.Codec} (data : any) :
  match Compress data with
  | (Some blob, None) =>
      18 <= len blob
      /\ firstn 10 blob = gzip.header
      /\ exists text, blob = gzipCompressRaw (text ++ [newline])
  | (None, Some e) =>
      errors.message e <> "failed to finalize compression"%string
      /\ (errors.code e = errors.InvalidParams <-> data = nil_any)
  | _ => False
  end.
Proof.
  destruct data as [|T G v].
  - cbn. split; [discriminate | tauto].
  - rewrite Compress_iface. destruct (marshal v) as [e | text].
    + cbn [errors.message errors.code errors.Wrapf]. split.
      * intros H. apply (f_equal (fun s => String.get 10 s)) in H.
        discriminate H.
      * split; discriminate.
    + split; [|split].
      * rewrite gzipCompressRaw_eq, !len_app.
        change (len gzip.header) with 10.
        change (len (gzip.footer (text ++ [newline]))) with 8.
        pose proof (len_nonneg (flate.deflate (text ++ [newline]))). lia.
      * rewrite gzipCompressRaw_eq. reflexivity.
      * exists text. reflexivity.
Qed.

Lemma HasPrefix_app (t b : string) : strings.HasPrefix (t ++ b) t = true.
Proof.
  induction t as [|c t IH]; cbn; [destruct b; reflexivity|].
  rewrite Ascii.eqb_refl. exact IH.
Qed.

Lemma Contains_app (a t b : string) :
  strings.Contains (a ++ t ++ b) t = true.
Proof.
  induction a as [|c a IH]; cbn [String.append strings.Contains].
  - pose proof (HasPrefix_app t b) as Hp.
    destruct (t ++ b)%string; cbn [strings.Contains]; rewrite Hp; reflexivity.
  - rewrite IH. apply orb_true_r.
Qed.

(** X11 (a value without a JSON form).  When the encoder refuses the value
    with an error [e], as it does for every channel, [Compress] returns
    no bytes and the [InternalServerError] "failed to encode JSON
    (type:<T>)" wrapping [e]; the message names the value's type. *)
Theorem unsupported_value_rejected
        {C : flate.Codec} {T} {G : GoType T} (v : T) (e : liberr) :
  marshal v = inl e ->
  Compress (iface v)
  = (None,
     Some (errors.Wrapf e errors.InternalServerError
             ("failed to encode JSON (type:" ++ type_name ++ ")")))
  /\ strings.Contains
       ("failed to encode JSON (type:" ++ type_name ++ ")") type_name = true.
Proof.
  intros Hm. split.
  - rewrite Compress_iface, Hm. reflexivity.
  - apply Contains_app.
Qed.

Lemma unsupported_value_rejected_witness :
  Compress (C := stored.codec) (iface examples.a_chan)
  = (None,
     Some (errors.Wrapf (UnsupportedTypeError "chan bool")
             errors.InternalServerError
             "failed to encode JSON (type:chan bool)"))
  /\ strings.Contains "failed to encode JSON (type:chan bool)" "chan bool"
     = true.
Proof.
  exact (unsupported_value_rejected (C := stored.codec) examples.a_chan
           (UnsupportedTypeError "chan bool") eq_refl).
Defined.

(** ** The test helper [truncateEnd] *)

(** The test helper [truncateEnd].  For [0 < n < len(b)] the result is [b] without
    its last [n] bytes; for any other [n] it is nil. *)
Theorem truncateEnd_spec (b : bytes) (n : Z) :
  (0 < n < len b ->
   len (truncateEnd b n) = len b - n
   /\ exists tail, b = truncateEnd b n ++ tail /\ len tail = n)
  /\ (n <= 0 \/ len b <= n -> truncateEnd b n = []).
Proof.
  unfold truncateEnd. split.
  - intros Hn.
    destruct (Z.leb_spec n 0); [lia|].
    replace (n >=? len b) with false
      by (rewrite Z.geb_leb; symmetry; apply Z.leb_gt; lia).
    cbn [orb]. split.
    + unfold len in *. rewrite length_firstn. lia.
    + exists (skipn (Z.to_nat (len b - n)) b). split.
      * symmetry. apply firstn_skipn.
      * unfold len in *. rewrite length_skipn. lia.
  - intros [Hn | Hn].
    + replace (n <=? 0) with true by (symmetry; apply Z.leb_le; lia).
      reflexivity.
    + replace (n >=? len b) with true
        by (rewrite Z.geb_leb; symmetry; apply Z.leb_le; lia).
      rewrite orb_true_r. reflexivity.
Qed.

(** ** Strings round-trip *)

(** The scanner inside a string literal, at the top level. *)
Definition in_string : json.scanner :=
  json.mkScanner json.stateInString false [] None.

(** What [appendString] writes for one ASCII byte. *)
Definition piece (c : byte) : bytes :=
  if htmlSafe c then [c] else escape_ascii c.

Definition is_ascii (c : byte) : Prop := byte_val c < 128.

Lemma appendString_loop_cons (fuel : nat) (c : byte) (src : bytes) :
  is_ascii c ->
  appendString_loop (S fuel) (c :: src) = piece c ++ appendString_loop fuel src.
Proof.
  intros Hc. cbn [appendString_loop].
  replace (byte_val c <? 128) with true
    by (symmetry; apply Z.ltb_lt; exact Hc).
  reflexivity.
Qed.

(** Each piece keeps the scanner inside the string. *)
Lemma scan_piece (c : byte) :
  is_ascii c ->
  forall p, json.scan_buf in_string (piece c) p
            = json.More (List.length (piece c) + p) in_string.
Proof.
  unfold is_ascii.
  destruct c as [[] [] [] [] [] [] [] []]; intros Hc p;
    try (exfalso; vm_compute in Hc; discriminate Hc); reflexivity.
Qed.

(** Each piece is unquoted to the byte it stands for. *)
Lemma unquote_piece (c : byte) :
  is_ascii c ->
  forall fuel tl,
    unquote_loop (S fuel) (piece c ++ tl)
    = option_map (cons c) (unquote_loop fuel tl).
Proof.
  unfold is_ascii.
  destruct c as [[] [] [] [] [] [] [] []]; intros Hc fuel tl;
    try (exfalso; vm_compute in Hc; discriminate Hc); reflexivity.
Qed.

Lemma scan_appendString_loop (src : bytes) :
  Forall is_ascii src ->
  forall fuel p,
    (List.length src <= fuel)%nat ->
    json.scan_buf in_string (appendString_loop fuel src) p
    = json.More (List.length (appendString_loop fuel src) + p) in_string.
Proof.
  induction 1 as [|c src Hc Hsrc IH]; intros fuel p Hf.
  - destruct fuel; reflexivity.
  - destruct fuel as [|fuel]; [cbn in Hf; lia|].
    rewrite appendString_loop_cons by exact Hc.
    rewrite scan_buf_app, scan_piece by exact Hc.
    rewrite IH by (cbn in Hf; lia).
    rewrite length_app. f_equal. lia.
Qed.

Lemma unquote_appendString_loop (src : bytes) :
  Forall is_ascii src ->
  forall fuel fuel',
    (List.length src <= fuel)%nat -> (List.length src <= fuel')%nat ->
    unquote_loop fuel' (appendString_loop fuel src) = Some src.
Proof.
  induction 1 as [|c src Hc Hsrc IH]; intros fuel fuel' Hf Hf'.
  - destruct fuel, fuel'; reflexivity.
  - destruct fuel as [|fuel]; [cbn in Hf; lia|].
    destruct fuel' as [|fuel']; [cbn in Hf'; lia|].
    rewrite appendString_loop_cons by exact Hc.
    rewrite unquote_piece by exact Hc.
    rewrite IH by (cbn in Hf, Hf'; lia). reflexivity.
Qed.

Lemma appendString_loop_fuel (src : bytes) :
  Forall is_ascii src ->
  forall f1 f2,
    (List.length src <= f1)%nat -> (List.length src <= f2)%nat ->
    appendString_loop f1 src = appendString_loop f2 src.
Proof.
  induction 1 as [|c src Hc Hsrc IH]; intros f1 f2 H1 H2.
  - destruct f1, f2; reflexivity.
  - destruct f1 as [|f1]; [cbn in H1; lia|].
    destruct f2 as [|f2]; [cbn in H2; lia|].
    rewrite !appendString_loop_cons by exact Hc.
    f_equal. apply IH; cbn in H1, H2; lia.
Qed.

(** The first loop of [unquoteBytes] on one piece: a byte written as it
    is counts, an escape stops the count. *)
Lemma plain_prefix_piece (c : byte) :
  is_ascii c ->
  forall fuel tl,
    plain_prefix (S fuel) (piece c ++ tl)
    = if htmlSafe c then S (plain_prefix fuel tl) else O.
Proof.
  unfold is_ascii.
  destruct c as [[] [] [] [] [] [] [] []]; intros Hc fuel tl;
    try (exfalso; vm_compute in Hc; discriminate Hc); reflexivity.
Qed.

Lemma piece_nonempty (c : byte) : is_ascii c -> piece c <> [].
Proof.
  unfold is_ascii.
  destruct c as [[] [] [] [] [] [] [] []]; intros Hc;
    try (exfalso; vm_compute in Hc; discriminate Hc); discriminate.
Qed.

Lemma piece_safe (c : byte) : htmlSafe c = true -> piece c = [c].
Proof. unfold piece. intros ->. reflexivity. Qed.

(** [unquoteBytes]' two loops together undo [appendString]'s loop. *)
Lemma unquote_two_loops (src : bytes) :
  Forall is_ascii src ->
  forall fuel g fuel',
    (List.length src <= fuel)%nat ->
    (List.length src <= fuel')%nat ->
    let body := appendString_loop fuel src in
    let r := plain_prefix (g + List.length body) body in
    (if Nat.eqb r (List.length body) then Some body
     else option_map (app (firstn r body)) (unquote_loop fuel' (skipn r body)))
    = Some src.
Proof.
  induction 1 as [|c src Hc Hsrc IH]; intros fuel g fuel' Hf Hf'.
  - destruct fuel; cbn; rewrite Nat.add_0_r; destruct g; reflexivity.
  - destruct fuel as [|fuel]; [cbn in Hf; lia|].
    cbv zeta. rewrite appendString_loop_cons by exact Hc.
    set (body' := appendString_loop fuel src).
    pose proof (piece_nonempty c Hc) as Hne.
    destruct (htmlSafe c) eqn:Hsafe.
    + rewrite (piece_safe c Hsafe) in *. cbn [app List.length].
      rewrite Nat.add_succ_r.
      pose proof (plain_prefix_piece c Hc (g + List.length body') body') as Hpp.
      rewrite (piece_safe c Hsafe), Hsafe in Hpp. cbn [app] in Hpp.
      rewrite Hpp. cbn [Nat.eqb firstn skipn].
      specialize (IH fuel g fuel'). cbv zeta in IH. fold body' in IH.
      assert (IH' := IH ltac:(cbn in Hf; lia) ltac:(cbn in Hf'; lia)).
      destruct (Nat.eqb (plain_prefix (g + List.length body') body')
                        (List.length body')).
      * inversion IH'. reflexivity.
      * destruct (unquote_loop fuel'
                    (skipn (plain_prefix (g + List.length body') body') body'))
          as [t|]; [|discriminate].
        cbn [option_map] in *. inversion IH'. reflexivity.
    + destruct (g + List.length (piece c ++ body'))%nat as [|k] eqn:Hk.
      { rewrite length_app in Hk. destruct (piece c); [contradiction|].
        cbn in Hk. lia. }
      rewrite plain_prefix_piece, Hsafe by exact Hc.
      destruct (piece c ++ body') as [|b0 bs] eqn:Hb.
      { destruct (piece c); [contradiction | discriminate Hb]. }
      cbn [Nat.eqb List.length firstn skipn option_map app]. rewrite <- Hb.
      destruct fuel' as [|fuel']; [cbn in Hf'; lia|].
      rewrite unquote_piece by exact Hc.
      unfold body'. rewrite unquote_appendString_loop; auto.
      * cbn in Hf; lia.
      * cbn in Hf'; lia.
Qed.

Lemma Encodable_string (s : string) :
  Forall is_ascii (list_ascii_of_string s) ->
  Encodable s (appendString (list_ascii_of_string s)).
Proof.
  intros Hs. set (src := list_ascii_of_string s : bytes) in *.
  set (body := appendString_loop (List.length src) src).
  split; [reflexivity | split].
  - intros rest. exists at_top. unfold appendString. fold body.
    cbn [app json.scan_buf].
    change (json.do_step json.reset dquote)
      with (in_string, json.scanBeginLiteral).
    cbv iota. rewrite <- app_assoc, scan_buf_app.
    unfold body. rewrite scan_appendString_loop by auto. fold body.
    cbn [app json.scan_buf].
    change (json.do_step in_string dquote)
      with (json.set_step in_string json.stateEndValue, json.scanContinue).
    cbv iota.
    change (json.do_step (json.set_step in_string json.stateEndValue) newline)
      with (at_top, json.scanEnd).
    cbv iota. f_equal. cbn [List.length]. rewrite length_app.
    cbn [List.length]. lia.
  - intros x. cbn [unmarshal GoType_string].
    unfold appendString. subst body.
    set (body := appendString_loop _ src).
    change (kind_of (dquote :: body ++ [dquote])) with KString.
    change (skipSpace (dquote :: body ++ [dquote]))
      with (dquote :: body ++ [dquote]).
    unfold unquoteBytes.
    change (negb (Ascii.eqb dquote dquote)) with false. cbv iota.
    rewrite rev_app_distr. cbn [rev app].
    change (negb (Ascii.eqb dquote dquote)) with false. cbv iota.
    rewrite rev_involutive.
    assert (Hbody : (List.length src <= List.length body)%nat).
    { unfold body. clear -Hs.
      induction Hs as [|c src Hc Hsrc IH]; [cbn; lia|].
      cbn [List.length]. rewrite appendString_loop_cons by exact Hc.
      rewrite length_app. pose proof (piece_nonempty c Hc) as Hne.
      destruct (piece c); [contradiction|]. cbn [List.length]. lia. }
    pose proof (unquote_two_loops src Hs (List.length src) 0
                  (List.length body) (Nat.le_refl _) Hbody) as H2.
    cbv zeta in H2. fold body in H2. cbn [Nat.add] in H2.
    lazymatch goal with
    | |- match ?E with _ => _ end = _ =>
        set (unq := E);
        assert (HE : unq = Some src) by exact H2;
        clearbody unq; subst unq
    end.
    unfold src. rewrite string_of_list_ascii_of_string. reflexivity.
Qed.

Lemma length_piece (c : byte) : (List.length (piece c) <= 6)%nat.
Proof.
  unfold piece, escape_ascii.
  destruct (htmlSafe c); [cbn; lia|].
  repeat match goal with
         | |- context [if ?b then _ else _] => destruct b
         end; cbn; lia.
Qed.

Lemma length_appendString (src : bytes) :
  Forall is_ascii src ->
  len (appendString src) <= 6 * len src + 2.
Proof.
  intros Hs. unfold appendString.
  assert (Hb : forall fuel, (List.length src <= fuel)%nat ->
                 len (appendString_loop fuel src) <= 6 * len src).
  { induction Hs as [|c src Hc Hsrc IH]; intros fuel Hf.
    - destruct fuel; cbn; lia.
    - destruct fuel as [|fuel]; [cbn in Hf; lia|].
      rewrite appendString_loop_cons by exact Hc.
      rewrite len_app. specialize (IH fuel ltac:(cbn in Hf; lia)).
      pose proof (length_piece c). unfold len in *. cbn [List.length]. lia. }
  specialize (Hb (List.length src) (Nat.le_refl _)).
  unfold len in *. cbn [List.length]. rewrite length_app. cbn [List.length]. lia.
Qed.

(** X12 (strings round-trip).  For every string of ASCII bytes, control
    characters, quotes, backslashes and the HTML-escaped [<], [>], [&]
    included, [Compress] succeeds, and [Decompress] of its blob, into any
    destination and with any limit of at least six times the string's
    length plus three, succeeds and stores the string. *)
Theorem string_roundtrip
        {C : flate.Codec} {L : flate.Lawful C}
        (s out : string) (limit : Z) :
  Forall is_ascii (list_ascii_of_string s) ->
  6 * Z.of_nat (String.length s) + 3 <= effective limit ->
  exists blob,
    Compress (iface s) = (Some blob, None)
    /\ Decompress blob (Some out) limit = (Some s, None).
Proof.
  intros Hs Hlimit.
  destruct (Encodable_string s Hs) as (Hm & Hsc & Hu).
  set (text := appendString (list_ascii_of_string s)) in *.
  exists (gzipCompressRaw (text ++ [newline])). split.
  - rewrite Compress_iface, Hm. reflexivity.
  - destruct (Hsc []) as [sv Hscan].
    apply (Decompress_raw_ok _ _ _ _ (List.length text) sv).
    + exact Hscan.
    + pose proof (length_appendString _ Hs) as Hl.
      assert (Hsl : len (list_ascii_of_string s) = Z.of_nat (String.length s)).
      { unfold len. f_equal. clear. induction s; cbn; congruence. }
      subst text. unfold len, byte in *. lia.
    + rewrite firstn_app, firstn_all, Nat.sub_diag. cbn [firstn].
      rewrite app_nil_r. apply Hu.
Qed.

Lemma string_roundtrip_witness :
  exists blob,
    Compress (C := stored.codec) (iface "a<b>\n"%string) = (Some blob, None)
    /\ Decompress blob (Some EmptyString) 64 = (Some "a<b>\n"%string, None).
Proof.
  apply (string_roundtrip (C := stored.codec) "a<b>\n"%string EmptyString 64).
  - repeat constructor.
  - vm_compute. discriminate.
Defined.

(** ** Integers round-trip *)

(** The decimal digits of [n], most significant first, as [fmt]'s loop
    produces them. *)
Fixpoint digits_list (fuel n : nat) : bytes :=
  match fuel with
  | O => []
  | S f =>
      if Nat.ltb n 10 then [fmt.digit (n mod 10)]
      else digits_list f (n / 10) ++ [fmt.digit (n mod 10)]
  end.

Definition in_number : json.scanner :=
  json.mkScanner json.state1 false [] None.

Lemma list_ascii_of_string_app (a b : string) :
  list_ascii_of_string (a ++ b) = list_ascii_of_string a ++ list_ascii_of_string b.
Proof. induction a; cbn; congruence. Qed.

Lemma digits_fuel_list (fuel : nat) :
  forall n acc,
    list_ascii_of_string (fmt.digits_fuel fuel n acc)
    = digits_list fuel n ++ list_ascii_of_string acc.
Proof.
  induction fuel as [|fuel IH]; intros n acc; cbn [fmt.digits_fuel digits_list].
  - reflexivity.
  - destruct (Nat.ltb n 10); [reflexivity|].
    rewrite IH, <- app_assoc. reflexivity.
Qed.

Lemma digit_spec (k : nat) :
  (k < 10)%nat ->
  json.isDigit (fmt.digit k) = true
  /\ byte_val (fmt.digit k) - 48 = Z.of_nat k
  /\ ((0 < k)%nat -> json.isDigit19 (fmt.digit k) = true).
Proof.
  intros Hk.
  do 10 (destruct k as [|k]; [repeat split; (reflexivity || lia)|]). lia.
Qed.

Lemma digits_val_snoc (ds : bytes) (c : byte) :
  json.isDigit c = true ->
  forall a,
    digits_val a (ds ++ [c])
    = option_map (fun v => 10 * v + (byte_val c - 48)) (digits_val a ds).
Proof.
  intros Hc. induction ds as [|d ds IH]; intros a; cbn [app digits_val].
  - rewrite Hc. reflexivity.
  - destruct (json.isDigit d); [apply IH | reflexivity].
Qed.

Lemma digits_list_val (fuel : nat) :
  forall n, (n < fuel)%nat ->
            digits_val 0 (digits_list fuel n) = Some (Z.of_nat n).
Proof.
  induction fuel as [|fuel IH]; intros n Hn; [lia|].
  cbn [digits_list].
  assert (Hmod : (n mod 10 < 10)%nat) by (apply Nat.mod_upper_bound; lia).
  destruct (digit_spec _ Hmod) as (Hd & Hv & _).
  destruct (Nat.ltb_spec n 10) as [Hlt | Hge].
  - cbn [digits_val]. rewrite Hd, Hv, Nat.mod_small by exact Hlt.
    f_equal.
  - rewrite digits_val_snoc by exact Hd.
    pose proof (Nat.div_mod_eq n 10) as Hdm.
    rewrite IH by lia. cbn [option_map]. rewrite Hv. f_equal. lia.
Qed.

Lemma digits_list_shape (fuel : nat) :
  forall n, (0 < n < fuel)%nat ->
            exists c0 tl,
              digits_list fuel n = c0 :: tl
              /\ json.isDigit19 c0 = true
              /\ Forall (fun c => json.isDigit c = true) tl.
Proof.
  induction fuel as [|fuel IH]; intros n Hn; [lia|].
  cbn [digits_list].
  assert (Hmod : (n mod 10 < 10)%nat) by (apply Nat.mod_upper_bound; lia).
  destruct (digit_spec _ Hmod) as (Hd & _ & H19).
  destruct (Nat.ltb_spec n 10) as [Hlt | Hge].
  - exists (fmt.digit (n mod 10)), []. repeat split; auto.
    apply H19. rewrite Nat.mod_small by exact Hlt. lia.
  - pose proof (Nat.div_mod_eq n 10) as Hdm.
    destruct (IH (n / 10)%nat) as (c0 & tl & Heq & Hc0 & Htl); [lia|].
    exists c0, (tl ++ [fmt.digit (n mod 10)]). rewrite Heq.
    repeat split; auto. apply Forall_app. split; auto.
Qed.

Lemma scan_digits (tl : bytes) :
  Forall (fun c => json.isDigit c = true) tl ->
  forall p, json.scan_buf in_number tl p
            = json.More (List.length tl + p) in_number.
Proof.
  induction 1 as [|c tl Hc Htl IH]; intros p; [reflexivity|].
  cbn [json.scan_buf]. unfold json.do_step at 1.
  cbn [json.step in_number]. rewrite Hc.
  change (json.set_step in_number json.state1) with in_number.
  cbv iota. rewrite IH. f_equal. cbn [List.length]. lia.
Qed.

(** A first digit that is not a zero. *)
Lemma first_digit (c : byte) :
  json.isDigit19 c = true ->
  json.do_step json.reset c = (in_number, json.scanBeginLiteral)
  /\ json.do_step (json.mkScanner json.stateNeg false [] None) c
     = (in_number, json.scanContinue)
  /\ forall tl, kind_of (c :: tl) = KNumber /\ skipSpace (c :: tl) = c :: tl.
Proof.
  destruct c as [[] [] [] [] [] [] [] []]; intros Hc;
    try (exfalso; vm_compute in Hc; discriminate Hc);
    repeat split; reflexivity.
Qed.

Lemma first_digit_sign (c : byte) :
  json.isDigit19 c = true ->
  Ascii.eqb c "-"%char = false /\ Ascii.eqb c "+"%char = false.
Proof.
  destruct c as [[] [] [] [] [] [] [] []]; intros Hc;
    try (exfalso; vm_compute in Hc; discriminate Hc);
    split; reflexivity.
Qed.

(** The decimal text of a natural number, scanned and parsed back. *)
Lemma decimal_text (n : nat) :
  (forall rest,
      json.scan_buf json.reset
        (digits_list (S n) n ++ newline :: rest) 0
      = json.Value (List.length (digits_list (S n) n)) at_top)
  /\ ((0 < n)%nat ->
      forall rest,
        json.scan_buf (json.mkScanner json.stateNeg false [] None)
          (digits_list (S n) n ++ newline :: rest) 1
        = json.Value (S (List.length (digits_list (S n) n))) at_top)
  /\ digits_val 0 (digits_list (S n) n) = Some (Z.of_nat n)
  /\ digits_list (S n) n <> []
  /\ (forall tl, kind_of (digits_list (S n) n ++ tl) = KNumber
                 /\ skipSpace (digits_list (S n) n ++ tl)
                    = digits_list (S n) n ++ tl)
  /\ (forall c tl, digits_list (S n) n = c :: tl ->
                   Ascii.eqb c "-"%char = false
                   /\ Ascii.eqb c "+"%char = false).
Proof.
  pose proof (digits_list_val (S n) n (Nat.lt_succ_diag_r n)) as Hval.
  destruct n as [|n].
  - split; [intros rest; reflexivity|].
    split; [intros Hn; lia|].
    split; [reflexivity|].
    split; [discriminate|].
    split; [intros tl; split; reflexivity|].
    intros c tl H. cbn in H. inversion H. split; reflexivity.
  - destruct (digits_list_shape (S (S n)) (S n)) as (c0 & tl & Heq & Hc0 & Htl);
      [lia|].
    rewrite Heq in *.
    destruct (first_digit c0 Hc0) as (Hreset & Hneg & Hkind).
    assert (Hend : forall rest p,
               json.scan_buf in_number (tl ++ newline :: rest) p
               = json.Value (List.length tl + p) at_top).
    { intros rest p. rewrite scan_buf_app, scan_digits by exact Htl.
      reflexivity. }
    split.
    { intros rest. cbn [app json.scan_buf]. rewrite Hreset. cbv iota.
      rewrite Hend. f_equal. cbn [List.length]. lia. }
    split.
    { intros _ rest. cbn [app json.scan_buf]. rewrite Hneg. cbv iota.
      rewrite Hend. f_equal. cbn [List.length]. lia. }
    split; [exact Hval|].
    split; [discriminate|].
    split; [intros tl'; apply (Hkind (tl ++ tl'))|].
    intros c tl' H. inversion H; subst. apply (first_digit_sign _ Hc0).
Qed.

Lemma AppendInt_digits (z : Z) :
  AppendInt z
  = if z <? 0
    then "-"%char :: digits_list (S (Z.to_nat (- z))) (Z.to_nat (- z))
    else digits_list (S (Z.to_nat z)) (Z.to_nat z).
Proof.
  unfold AppendInt, fmt.d, fmt.nat_to_string.
  destruct (z <? 0); cbn [list_ascii_of_string];
    rewrite digits_fuel_list; cbn [list_ascii_of_string];
    now rewrite app_nil_r.
Qed.

Lemma Encodable_int (z : Z) :
  - 2 ^ 63 <= z < 2 ^ 63 -> Encodable z (AppendInt z).
Proof.
  intros Hz. split; [reflexivity|].
  rewrite AppendInt_digits.
  destruct (Z.ltb_spec z 0) as [Hneg | Hpos].
  - set (n := Z.to_nat (- z)).
    assert (Hn : (0 < n)%nat) by (unfold n; lia).
    destruct (decimal_text n) as (_ & Hscan & Hval & Hne & _ & _).
    specialize (Hscan Hn). split.
    + intros rest. exists at_top. cbn [app json.scan_buf].
      change (json.do_step json.reset "-"%char)
        with (json.mkScanner json.stateNeg false [] None, json.scanBeginLiteral).
      cbv iota. rewrite Hscan. reflexivity.
    + intros x. cbn [unmarshal GoType_int].
      change (kind_of ("-"%char :: digits_list (S n) n)) with KNumber.
      change (skipSpace ("-"%char :: digits_list (S n) n))
        with ("-"%char :: digits_list (S n) n).
      unfold ParseInt. change (Ascii.eqb "-" "-") with true. cbv iota.
      destruct (digits_list (S n) n) as [|c tl] eqn:Hd; [contradiction|].
      rewrite Hval. unfold n.
      replace (- Z.of_nat (Z.to_nat (- z))) with z by lia.
      replace ((- 2 ^ 63 <=? z) && (z <? 2 ^ 63)) with true
        by (symmetry; apply andb_true_iff; split;
            [apply Z.leb_le | apply Z.ltb_lt]; lia).
      reflexivity.
  - set (n := Z.to_nat z).
    destruct (decimal_text n) as (Hscan & _ & Hval & Hne & Hkind & Hsign).
    split.
    + intros rest. exists at_top. apply Hscan.
    + intros x. cbn [unmarshal GoType_int].
      destruct (Hkind []) as [Hk Hs]. rewrite app_nil_r in Hk, Hs.
      rewrite Hk, Hs. unfold ParseInt.
      destruct (digits_list (S n) n) as [|c tl] eqn:Hd; [contradiction|].
      destruct (Hsign c tl eq_refl) as [H1 H2]. rewrite H1, H2.
      rewrite Hval. unfold n.
      replace (Z.of_nat (Z.to_nat z)) with z by lia.
      replace ((- 2 ^ 63 <=? z) && (z <? 2 ^ 63)) with true
        by (symmetry; apply andb_true_iff; split;
            [apply Z.leb_le | apply Z.ltb_lt]; lia).
      reflexivity.
Qed.


Lemma length_digits_list (fuel : nat) :
  forall n k, (0 < k)%nat -> Z.of_nat n < 10 ^ Z.of_nat k ->
              (List.length (digits_list fuel n) <= k)%nat.
Proof.
  induction fuel as [|fuel IH]; intros n k Hk Hn; cbn [digits_list].
  - cbn. lia.
  - destruct (Nat.ltb_spec n 10) as [Hlt | Hge]; [cbn; lia|].
    rewrite length_app. cbn [List.length].
    destruct k as [|k]; [lia|].
    destruct k as [|k]; [cbn in Hn; lia|].
    assert (Hdiv : Z.of_nat (n / 10) < 10 ^ Z.of_nat (S k)).
    { rewrite Nat2Z.inj_div. apply Z.div_lt_upper_bound; [lia|].
      replace (Z.of_nat (S (S k))) with (Z.succ (Z.of_nat (S k))) in Hn by lia.
      rewrite Z.pow_succ_r in Hn by lia. exact Hn. }
    specialize (IH (n / 10)%nat (S k) ltac:(lia) Hdiv). lia.
Qed.

Lemma length_AppendInt (z : Z) :
  - 2 ^ 63 <= z < 2 ^ 63 -> (List.length (AppendInt z) <= 20)%nat.
Proof.
  intros Hz. rewrite AppendInt_digits.
  destruct (Z.ltb_spec z 0) as [Hneg | Hpos]; cbn [List.length].
  - pose proof (length_digits_list (S (Z.to_nat (- z))) (Z.to_nat (- z)) 19
                  ltac:(lia) ltac:(rewrite Z2Nat.id by lia; cbn; lia)).
    lia.
  - pose proof (length_digits_list (S (Z.to_nat z)) (Z.to_nat z) 19
                  ltac:(lia) ltac:(rewrite Z2Nat.id by lia; cbn; lia)).
    lia.
Qed.

(** X13 (integers round-trip).  For every integer of the [int64] range,
    [Compress] succeeds, and [Decompress] of its blob, into any
    destination and with any limit of at least 21 bytes (or the default),
    succeeds and stores the same integer. *)
Theorem int_roundtrip
        {C : flate.Codec} {L : flate.Lawful C}
        (z out : Z) (limit : Z) :
  - 2 ^ 63 <= z < 2 ^ 63 ->
  21 <= effective limit ->
  exists blob,
    Compress (iface z) = (Some blob, None)
    /\ Decompress blob (Some out) limit = (Some z, None).
Proof.
  intros Hz Hlimit.
  destruct (Encodable_int z Hz) as (Hm & Hsc & Hu).
  exists (gzipCompressRaw (AppendInt z ++ [newline])). split.
  - rewrite Compress_iface, Hm. reflexivity.
  - destruct (Hsc []) as [sv Hscan].
    apply (Decompress_raw_ok _ _ _ _ (List.length (AppendInt z)) sv).
    + exact Hscan.
    + pose proof (length_AppendInt z Hz). lia.
    + rewrite firstn_app, firstn_all, Nat.sub_diag. cbn [firstn].
      rewrite app_nil_r. apply Hu.
Qed.

Lemma int_roundtrip_witness :
  exists blob,
    Compress (C := stored.codec) (iface (- 9223372036854775808)) = (Some blob, None)
    /\ Decompress blob (Some 7) 0 = (Some (- 9223372036854775808), None).
Proof.
  apply (int_roundtrip (C := stored.codec) (- 9223372036854775808) 7 0).
  - vm_compute. split; [discriminate | reflexivity].
  - vm_compute. discriminate.
Defined.

End Further.
